(** * The batch install scheduler of gatsby-cli's plugin-add-utils.ts

    A shallow embedding of [getPackageNames], [generateClientCommands],
    [executeInstalls], [debouncedExecute] and [createInstall] from
    packages/gatsby-cli/src/handlers/plugin-add-utils.ts, together with the
    properties of the scheduler that the specification states.

    The module-level [installs] array, the debounce timer and the
    [package.json] lock are the fields of an explicit [state]; the
    suspension points of the async function [executeInstalls]
    ([await lock], [await execa]) are the boundaries between the steps of a
    step function on that state. *)

From stdpp Require Import base list gmap strings.
From Stdlib Require Import Ascii Lia.

(** ** JavaScript values read by the scheduler *)

(** The fields the scheduler reads hold a string or are absent. *)
Inductive jsval : Type :=
| JUndefined
| JStr (s : string).

(** Conversion to a string, as done by a template literal and by the use of
    a value as a property key. *)
Definition ToString (v : jsval) : string :=
  match v with
  | JUndefined => "undefined"
  | JStr s => s
  end.

(** The operator [===]. *)
Definition strict_eq (a b : jsval) : bool :=
  match a, b with
  | JUndefined, JUndefined => true
  | JStr x, JStr y => String.eqb x y
  | _, _ => false
  end.

(** The [resource] of a queue entry is declared [any].  [createInstall]
    stores its [name] argument there, declared [string]; [executeInstalls]
    reads the properties [name], [version] and [dependencyType] from it.
    Both shapes are kept: a property read on a string primitive gives
    [undefined]. *)
Inductive resource_value : Type :=
| ResString (s : string)
| ResObject (name version dependencyType : jsval).

Definition res_name (r : resource_value) : jsval :=
  match r with
  | ResString _ => JUndefined
  | ResObject n _ _ => n
  end.

Definition res_version (r : resource_value) : jsval :=
  match r with
  | ResString _ => JUndefined
  | ResObject _ v _ => v
  end.

Definition res_dependencyType (r : resource_value) : jsval :=
  match r with
  | ResString _ => JUndefined
  | ResObject _ _ d => d
  end.

(** An entry of [installs].  [outsideResolve] and [outsideReject] are the
    two settling functions of one promise made by [createInstall]; [promise]
    is the identity of that promise. *)
Record install : Type := mkInstall {
  promise : nat;
  resource : resource_value
}.

(** ** Command generation *)

(** [PACKAGE_MANAGER = getConfigStore().get(key) || "yarn"]; [stored] is the
    value the config store returns. *)
Definition PACKAGE_MANAGER (stored : jsval) : string :=
  match stored with
  | JUndefined => "yarn"
  | JStr EmptyString => "yarn"
  | JStr s => s
  end.

Definition getPackageNames (packages : list resource_value) : list string :=
  (fun n => ToString (res_name n) +:+ "@" +:+ ToString (res_version n)) <$> packages.

(** [None] stands for the [undefined] returned at the end of the function. *)
Definition generateClientCommands
    (packageManager : string) (depType : jsval) (packageNames : list string)
    : option (list string) :=
  let commands : list string := [] in
  if String.eqb packageManager "yarn" then
    let commands := commands ++ ["add"] in
    let commands := commands ++ ["-W"] in
    let commands :=
      if strict_eq depType (JStr "development")
      then commands ++ ["--dev"] else commands in
    Some (commands ++ packageNames)
  else if String.eqb packageManager "npm" then
    let commands := commands ++ ["install"] in
    let commands :=
      if strict_eq depType (JStr "development")
      then commands ++ ["--save-dev"] else commands in
    Some (commands ++ packageNames)
  else None.

(** ** The synchronous prefix of a flush pass *)

(** lodash's [groupBy]: the result object maps the string form of each key
    to the array of the elements with that key, in order. *)
Definition groupBy {A : Type} (collection : list A) (iteratee : A -> jsval)
    : gmap string (list A) :=
  foldl (fun result value =>
           let key := ToString (iteratee value) in
           match result !! key with
           | Some arr => <[key := arr ++ [value]]> result
           | None => <[key := [value]]> result
           end) ∅ collection.

(** An activation of [executeInstalls] suspended at one of its awaits. *)
Record flush : Type := mkFlush {
  packagesToInstall : list install;
  commands : option (list string);
  cwd : string
}.

(** Outcome of running code that can throw. *)
Inductive completion (A : Type) : Type :=
| Normal (a : A)
| TypeError.
Arguments Normal {A} a.
Arguments TypeError {A}.

(** Lines 108-129 of [executeInstalls]: everything before [await lock].
    Returns the new value of [installs] and the suspended activation.
    [installs[0].resource] throws on an empty array; were
    [types[depType]] absent, the call of [some] on it would throw. *)
Definition executeInstalls_prefix
    (stored : jsval) (root : string) (installs : list install)
    : completion (list install * flush) :=
  let types := groupBy installs (fun c => res_dependencyType (resource c)) in
  match installs with
  | [] => TypeError
  | first :: _ =>
    let depType := res_dependencyType (resource first) in
    match types !! ToString depType with
    | None => TypeError
    | Some packagesToInstall =>
      let installs' :=
        List.filter
          (fun i => negb (existsb
                            (fun p => strict_eq (res_name (resource i))
                                                (res_name (resource p)))
                            packagesToInstall))
          installs in
      let pkgs := resource <$> packagesToInstall in
      let packageNames := getPackageNames pkgs in
      let commands :=
        generateClientCommands (PACKAGE_MANAGER stored) depType packageNames in
      Normal (installs', mkFlush packagesToInstall commands root)
    end
  end.

(** ** Settling the promises *)

(** What a call of one of the two settling functions passes. *)
Inductive outcome : Type :=
| Resolved
| Rejected (payload : string).

(** A call [p.outsideResolve()]. *)
Definition outsideResolve (p : install) : nat * outcome := (promise p, Resolved).

(** A call [p.outsideReject(payload)]. *)
Definition outsideReject (payload : string) (p : install) : nat * outcome :=
  (promise p, Rejected payload).

(** The state of a promise after a sequence of settling calls: the first
    call on it decides, later ones have no effect. *)
Fixpoint settlement (calls : list (nat * outcome)) (p : nat) : option outcome :=
  match calls with
  | [] => None
  | (q, o) :: rest => if Nat.eqb q p then Some o else settlement rest p
  end.

(** *** The rejection payload *)

Definition dquote : string := String "034"%char EmptyString.
Definition backslash : string := String "092"%char EmptyString.

Definition hex_digit (n : nat) : string :=
  match String.get n "0123456789abcdef" with
  | Some c => String c EmptyString
  | None => "0"
  end.

(** The escape of one code unit in [JSON.stringify] of a string. *)
Definition json_escape (c : ascii) : string :=
  let n := nat_of_ascii c in
  if Nat.eqb n 34 then backslash +:+ dquote
  else if Nat.eqb n 92 then backslash +:+ backslash
  else if Nat.eqb n 8 then backslash +:+ "b"
  else if Nat.eqb n 9 then backslash +:+ "t"
  else if Nat.eqb n 10 then backslash +:+ "n"
  else if Nat.eqb n 12 then backslash +:+ "f"
  else if Nat.eqb n 13 then backslash +:+ "r"
  else if Nat.ltb n 32 then
    backslash +:+ "u00" +:+ hex_digit (n / 16) +:+ hex_digit (n mod 16)
  else String c EmptyString.

Fixpoint json_escape_all (s : string) : string :=
  match s with
  | EmptyString => EmptyString
  | String c rest => json_escape c +:+ json_escape_all rest
  end.

(** [JSON.stringify] of a string. *)
Definition json_quote (s : string) : string :=
  dquote +:+ json_escape_all s +:+ dquote.

Definition installationError : string := "Could not install package".

(** [JSON.stringify({ message: shortMessage, installationError: ... })];
    a property whose value is [undefined] is left out. *)
Definition rejection_payload (shortMessage : jsval) : string :=
  let marker :=
    json_quote "installationError" +:+ ":" +:+ json_quote installationError in
  match shortMessage with
  | JUndefined => "{" +:+ marker +:+ "}"
  | JStr m =>
    "{" +:+ json_quote "message" +:+ ":" +:+ json_quote m +:+ "," +:+ marker +:+ "}"
  end.

(** [s] occurs in [t]. *)
Definition occurs_in (s t : string) : Prop :=
  exists before after, t = before +:+ s +:+ after.

(** ** The debounce timer *)

(** The wait passed to [_.debounce] at line 161. *)
Definition debounce_wait : nat := 25.

(** Modelled from the spec: lodash's [debounce] is an external library and
    not part of the sources.  With the default options it is trailing-edge
    only: every call re-arms a timer that expires [wait] time units after
    that call and keeps the argument of that call.  A timer is its deadline
    and the argument of the pending invocation; time is counted in whole
    units. *)
Definition debounce_call (now : nat) (root : string) : option (nat * string) :=
  Some (now + debounce_wait, root).

(** Modelled from the spec: the other half of lodash's [debounce].  The
    timer at time [now]: the timer that remains and the argument of the
    invocation that is due, if the deadline is reached. *)
Definition debounce_expire (now : nat) (timer : option (nat * string))
    : option (nat * string) * option string :=
  match timer with
  | Some (deadline, root) =>
    if Nat.leb deadline now then (None, Some root) else (timer, None)
  | None => (None, None)
  end.

(** ** The scheduler as a state machine *)

Record state : Type := mkState {
  installs : list install;            (* the module-level queue *)
  timer : option (nat * string);      (* the timer of [debouncedExecute] *)
  clock : nat;
  next_promise : nat;                 (* identity of the next promise made *)
  lock_held : bool;                   (* the lock on package.json *)
  awaiting_lock : list flush;         (* activations at [await lock] *)
  awaiting_execa : list flush;        (* activations at [await execa] *)
  settle_calls : list (nat * outcome);
  invocations : list (string * option (list string) * string);
  fired : list nat;                   (* times at which the timer expired *)
  thrown : nat                        (* activations ended by a TypeError *)
}.

Definition init : state :=
  mkState [] None 0 0 false [] [] [] [] [] 0.

(** How the installer call of an activation ends. *)
Inductive execa_result : Type :=
| ExecaOk
| ExecaFailed (shortMessage : jsval).

(** What happens to the scheduler.  The environment decides when a waiting
    activation gets the lock and when and how an installer call ends. *)
Inductive event : Type :=
| CreateInstall (root : string) (name : resource_value)
| Tick
| LockGranted (k : nat)
| ExecaSettled (k : nat) (r : execa_result).

Section Scheduler.

(** The value the config store holds for [cli.packageManager]. *)
Variable stored : jsval.

(** A call of [executeInstalls], up to its first await. *)
Definition executeInstalls (root : string) (s : state) : state :=
  match executeInstalls_prefix stored root (installs s) with
  | TypeError =>
    mkState (installs s) (timer s) (clock s) (next_promise s) (lock_held s)
            (awaiting_lock s) (awaiting_execa s) (settle_calls s)
            (invocations s) (fired s) (S (thrown s))
  | Normal (installs', f) =>
    mkState installs' (timer s) (clock s) (next_promise s) (lock_held s)
            (awaiting_lock s ++ [f]) (awaiting_execa s) (settle_calls s)
            (invocations s) (fired s) (thrown s)
  end.

(** [createInstall]: make the promise, push the entry, call
    [debouncedExecute].  The promise returned to the caller is the one
    numbered [next_promise s]. *)
Definition createInstall (root : string) (name : resource_value) (s : state)
    : state :=
  mkState (installs s ++ [mkInstall (next_promise s) name])
          (debounce_call (clock s) root) (clock s) (S (next_promise s))
          (lock_held s) (awaiting_lock s) (awaiting_execa s) (settle_calls s)
          (invocations s) (fired s) (thrown s).

(** [NPMPackageCreate] awaits [createInstall] and returns nothing. *)
Definition NPMPackageCreate (root : string) (name : resource_value) (s : state)
    : state :=
  createInstall root name s.

(** One time unit passes; an expired timer invokes [executeInstalls]. *)
Definition tick (s : state) : state :=
  let now := S (clock s) in
  match debounce_expire now (timer s) with
  | (timer', Some root) =>
    executeInstalls root
      (mkState (installs s) timer' now (next_promise s) (lock_held s)
               (awaiting_lock s) (awaiting_execa s) (settle_calls s)
               (invocations s) (fired s ++ [now]) (thrown s))
  | (timer', None) =>
    mkState (installs s) timer' now (next_promise s) (lock_held s)
            (awaiting_lock s) (awaiting_execa s) (settle_calls s)
            (invocations s) (fired s) (thrown s)
  end.

(** Lines 131-135: the lock is acquired and the installer is called.  Only
    possible while the lock is free. *)
Definition lock_granted (k : nat) (s : state) : state :=
  if lock_held s then s
  else
    match awaiting_lock s !! k with
    | None => s
    | Some f =>
      mkState (installs s) (timer s) (clock s) (next_promise s) true
              (delete k (awaiting_lock s)) (awaiting_execa s ++ [f])
              (settle_calls s)
              (invocations s ++ [(PACKAGE_MANAGER stored, commands f, cwd f)])
              (fired s) (thrown s)
    end.

(** Lines 136-158: the installer call of an activation has ended. *)
Definition execa_settled (k : nat) (r : execa_result) (s : state) : state :=
  match awaiting_execa s !! k with
  | None => s
  | Some f =>
    match r with
    | ExecaFailed shortMessage =>
      (* the catch block: reject every member and return *)
      mkState (installs s) (timer s) (clock s) (next_promise s) (lock_held s)
              (awaiting_lock s) (delete k (awaiting_execa s))
              (settle_calls s
                 ++ (outsideReject (rejection_payload shortMessage)
                       <$> packagesToInstall f))
              (invocations s) (fired s) (thrown s)
    | ExecaOk =>
      (* release(); resolve every member; run again if there is more *)
      let s' :=
        mkState (installs s) (timer s) (clock s) (next_promise s) false
                (awaiting_lock s) (delete k (awaiting_execa s))
                (settle_calls s ++ (outsideResolve <$> packagesToInstall f))
                (invocations s) (fired s) (thrown s) in
      if Nat.ltb 0 (length (installs s')) then executeInstalls (cwd f) s'
      else s'
    end
  end.

Definition step (s : state) (e : event) : state :=
  match e with
  | CreateInstall root name => createInstall root name s
  | Tick => tick s
  | LockGranted k => lock_granted k s
  | ExecaSettled k r => execa_settled k r s
  end.

Definition run (evs : list event) (s : state) : state := foldl step s evs.

(** The states the scheduler can be in. *)
Definition reachable (s : state) : Prop := exists evs, s = run evs init.

End Scheduler.

(** ** Notions used to state the properties *)

(** The elements of [l] whose key has the string form [k]. *)
Definition with_key {A : Type} (iteratee : A -> jsval) (k : string) (l : list A)
    : list A :=
  List.filter (fun x => String.eqb (ToString (iteratee x)) k) l.

(** The group a flush pass services: the entries of the queue whose
    classification has the same string form as that of the first entry. *)
Definition serviced_group (installs : list install) : list install :=
  match installs with
  | [] => []
  | first :: _ =>
    with_key (fun c => res_dependencyType (resource c))
             (ToString (res_dependencyType (resource first))) installs
  end.

(** What the filter of line 116 keeps. *)
Definition kept (group installs : list install) : list install :=
  List.filter
    (fun i => negb (existsb (fun p => strict_eq (res_name (resource i))
                                                (res_name (resource p))) group))
    installs.

(** The promises of the members of suspended activations. *)
Definition flush_promises (fs : list flush) : list nat :=
  fs ≫= (fun f => promise <$> packagesToInstall f).

(** Every promise the scheduler knows: those of the queue, of the suspended
    activations, and those already passed to a settling call. *)
Definition tracked (s : state) : list nat :=
  (promise <$> installs s) ++ flush_promises (awaiting_lock s)
  ++ flush_promises (awaiting_execa s) ++ (settle_calls s).*1.

(** No promise is tracked twice, and all were made before the next one. *)
Definition wf (s : state) : Prop :=
  NoDup (tracked s) /\ Forall (fun p => p < next_promise s) (tracked s).

(** What the members of an activation are settled with when its installer
    call ends with [r]. *)
Definition outcome_of (r : execa_result) : outcome :=
  match r with
  | ExecaOk => Resolved
  | ExecaFailed shortMessage => Rejected (rejection_payload shortMessage)
  end.

(** The argument a queue entry contributes to the installer command. *)
Definition entry (p : install) : string :=
  ToString (res_name (resource p)) +:+ "@" +:+ ToString (res_version (resource p)).

(** The resource is an object whose [name] and [version] are strings, the
    shape [getPackageNames] declares for its argument. *)
Definition named_object (p : install) : bool :=
  match resource p with
  | ResObject (JStr _) (JStr _) _ => true
  | _ => false
  end.

(** The wording of the specification on the argument list: every name of the
    serviced group occurs in it exactly once. *)
Definition each_name_once (stored : jsval) (installs : list install) : Prop :=
  forall root installs' f,
    executeInstalls_prefix stored root installs = Normal (installs', f) ->
    exists args,
      commands f = Some args /\
      forall p, p ∈ packagesToInstall f ->
                count_occ String.string_dec args (entry p) = 1.

(** ** Scenarios *)

(** One request; the timer expires; the activation gets the lock and calls
    the installer. *)
Definition one_request_running : list event :=
  [CreateInstall "/site" (ResString "pkg-a")] ++ replicate 25 Tick
  ++ [LockGranted 0].

(** Two requests of different classifications for the same package name. *)
Definition pkg_production : resource_value :=
  ResObject (JStr "pkg") (JStr "1.0.0") (JStr "production").

Definition pkg_development : resource_value :=
  ResObject (JStr "pkg") (JStr "2.0.0") (JStr "development").

Definition same_name_two_groups : list event :=
  [CreateInstall "/site" pkg_production; CreateInstall "/site" pkg_development]
  ++ replicate 25 Tick.

(** A second request arrives while the installer runs for the first. *)
Definition request_during_install : list event :=
  one_request_running ++ [CreateInstall "/site" (ResString "pkg-b")].

(** The installer fails for the first request; later a second request is
    made and its timer expires. *)
Definition request_after_failure : list event :=
  one_request_running ++ [ExecaSettled 0 (ExecaFailed (JStr "exit 1"))]
  ++ [CreateInstall "/site" (ResString "pkg-b")] ++ replicate 25 Tick.

(** ** Bursts of calls *)

(** Events other than a call of [createInstall]. *)
Definition quiet (e : event) : bool :=
  match e with
  | CreateInstall _ _ => false
  | _ => true
  end.





(** ** Further notions *)

(** Nothing queued, no timer pending, no activation, lock free. *)
Definition idle (s : state) : Prop :=
  installs s = [] /\ timer s = None /\ lock_held s = false
  /\ awaiting_lock s = [] /\ awaiting_execa s = [].

(** At most one installer call runs, and only under the lock. *)
Definition exclusive (s : state) : Prop :=
  length (awaiting_execa s) <= 1
  /\ (awaiting_execa s <> [] -> lock_held s = true).

(** The resource is a string, as the signature of [createInstall] says. *)
Definition string_named (i : install) : bool :=
  match resource i with
  | ResString _ => true
  | ResObject _ _ _ => false
  end.

(** The string form of the classification of a queue entry. *)
Definition class_key (i : install) : string :=
  ToString (res_dependencyType (resource i)).

(** The character [c] occurs in [s]. *)
Fixpoint mentions (c : ascii) (s : string) : bool :=
  match s with
  | EmptyString => false
  | String x rest => Ascii.eqb x c || mentions c rest
  end.

(** What is known about the timer in every state. *)
Definition timer_ok (s : state) : Prop :=
  (forall deadline root,
     timer s = Some (deadline, root) ->
     clock s < deadline /\ deadline <= clock s + debounce_wait
     /\ debounce_wait <= deadline)
  /\ length (fired s) + match timer s with Some _ => 1 | None => 0 end
     <= next_promise s
  /\ Forall (fun t => debounce_wait <= t /\ t <= clock s) (fired s).

(** The resources passed to [createInstall] by the events, in order: the
    call that makes promise [n] passes the [n]-th of them. *)
Fixpoint requested (evs : list event) : list resource_value :=
  match evs with
  | [] => []
  | CreateInstall _ name :: rest => name :: requested rest
  | _ :: rest => requested rest
  end.

(** The queue entry is the one a call of [createInstall] made: the call
    numbered by its promise passed its resource. *)
Definition request_of (reqs : list resource_value) (p : install) : Prop :=
  reqs !! promise p = Some (resource p).

(** The members [first :: others] are distinct requests of the run, all of
    the classification of [first], and [args] is the command generated for
    them. *)
Definition command_for_group (stored : jsval) (reqs : list resource_value)
    (first : install) (others : list install)
    (args : option (list string)) : Prop :=
  Forall (request_of reqs) (first :: others)
  /\ NoDup (promise <$> first :: others)
  /\ Forall (fun p => class_key p = class_key first) others
  /\ args = generateClientCommands (PACKAGE_MANAGER stored)
              (res_dependencyType (resource first))
              (entry <$> first :: others).

(** What is known about the queue, the activations waiting for the lock and
    the installer calls made so far, [reqs] being the resources requested
    so far. *)
Definition commands_ok (stored : jsval) (reqs : list resource_value)
    (s : state) : Prop :=
  next_promise s = length reqs
  /\ Forall (request_of reqs) (installs s)
  /\ Forall (fun f => exists first others,
                        packagesToInstall f = first :: others
                        /\ command_for_group stored reqs first others (commands f))
            (awaiting_lock s)
  /\ Forall (fun call => call.1.1 = PACKAGE_MANAGER stored
                         /\ exists first others,
                              command_for_group stored reqs first others call.1.2)
            (invocations s).

(** Events in which every call of [createInstall] passes a string. *)
Definition string_event (e : event) : bool :=
  match e with
  | CreateInstall _ (ResObject _ _ _) => false
  | _ => true
  end.

(** The queue entries that calls with the names [names] make, the first
    promise being [base]. *)
Fixpoint queue_of (base : nat) (names : list string) : list install :=
  match names with
  | [] => []
  | n :: rest => mkInstall base (ResString n) :: queue_of (S base) rest
  end.

(** The root passed by the last call of a burst. *)
Fixpoint final_root (root : string) (more : list (string * string)) : string :=
  match more with
  | [] => root
  | (r, _) :: rest => final_root r rest
  end.

(** Calls of [createInstall] with string names, one after the other. *)
Definition calls (requests : list (string * string)) : list event :=
  (fun rn => CreateInstall rn.1 (ResString rn.2)) <$> requests.

(** A burst of calls, the wait, the lock, and a successful installer call. *)
Definition calls_then_success (requests : list (string * string)) : list event :=
  calls requests ++ replicate debounce_wait Tick
  ++ [LockGranted 0; ExecaSettled 0 ExecaOk].

(** The lock is granted to the first waiting activation and its installer
    call succeeds. *)
Definition successful_pass : list event :=
  [LockGranted 0; ExecaSettled 0 ExecaOk].

(** Three requests of three classifications for three packages; the timer
    expires and a pass takes the first. *)
Definition three_groups : list event :=
  [CreateInstall "/site" (ResObject (JStr "react") (JStr "18.2.0")
                                    (JStr "production"));
   CreateInstall "/site" (ResObject (JStr "jest") (JStr "29.0.0")
                                    (JStr "development"));
   CreateInstall "/site" (ResObject (JStr "sharp") (JStr "0.32.0")
                                    (JStr "optional"))]
  ++ replicate 25 Tick.

(** No request queued, no activation, lock free. *)
Definition drained (s : state) : Prop :=
  installs s = [] /\ awaiting_lock s = [] /\ awaiting_execa s = []
  /\ lock_held s = false.

(** * Page generation jobs

    [runPageGenerationJobs] of
    packages/gatsby/src/services/run-page-generation-jobs.ts. *)

(** The result of [Number(process.env.GATSBY_PARALLEL_QUERY_CHUNK_SIZE)], a
    double: not a number (the variable is unset or is no numeral), an
    infinity, or a finite value.  A finite double is a rational number,
    here [num / den]; both zeros are [Finite 0 _]. *)
Inductive jsnum : Type :=
| NaN
| PosInfinity
| NegInfinity
| Finite (num : Z) (den : positive).

(** Truthiness of a number: [NaN] and the zeros are falsy. *)
Definition num_truthy (v : jsnum) : bool :=
  match v with
  | NaN => false
  | Finite 0%Z _ => false
  | _ => true
  end.

(** [Number(...) || 50] *)
Definition pageGenChunkSize (setting : jsnum) : jsnum :=
  if num_truthy setting then setting else Finite 50%Z 1%positive.

(** lodash's [MAX_INTEGER], 1.7976931348623157e+308. *)
Definition MAX_INTEGER : Z := (2 ^ 1024 - 2 ^ 971)%Z.

(** lodash's [toInteger]: an infinity becomes [MAX_INTEGER] with its sign,
    [NaN] becomes 0, and the fraction of a finite value is dropped. *)
Definition toInteger (v : jsnum) : Z :=
  match v with
  | NaN => 0%Z
  | PosInfinity => MAX_INTEGER
  | NegInfinity => (- MAX_INTEGER)%Z
  | Finite num den => Z.quot num (Z.pos den)
  end.

(** [nativeCeil(length / size)] for a length and an integer size of at
    least 1. *)
Definition nativeCeil_div (length size : Z) : Z :=
  ((length + size - 1) / size)%Z.

(** lodash's [baseSlice] for a start that is not negative: the end is
    clamped to the length. *)
Definition baseSlice {A : Type} (array : list A) (start finish : Z) : list A :=
  let finish := Z.min finish (Z.of_nat (length array)) in
  take (Z.to_nat (finish - start)%Z) (drop (Z.to_nat start) array).

(** lodash's [chunk]: the size is made an integer and clamped below at 0; a
    missing or empty array or a size below 1 gives no chunk; otherwise the
    slices from [index] to [index + size] for [index = 0, size,
    2 * size, ...] below the length, [nativeCeil(length / size)] of
    them. *)
Definition chunk {A : Type} (array : option (list A)) (size : jsnum)
    : list (list A) :=
  let size := Z.max (toInteger size) 0%Z in
  let length := Z.of_nat (match array with None => 0 | Some l => length l end) in
  if Z.eqb length 0%Z || Z.ltb size 1%Z then []
  else (fun i => let index := (Z.of_nat i * size)%Z in
                 baseSlice (default [] array) index (index + size)%Z)
       <$> seq 0 (Z.to_nat (nativeCeil_div length size)).

Record page : Type := mkPage { path : string }.

Record IQueryIds : Type := mkQueryIds {
  pageQueryIds : list (option page)   (* [None] is a null entry *)
}.

(** What is passed to [createInternalJob] for one chunk. *)
Record job : Type := mkJob {
  job_name : string;
  job_paths : list jsval;
  job_inputPaths : list string;
  job_plugin : string * string
}.

(** [item?.path] *)
Definition item_path (item : option page) : jsval :=
  match item with
  | None => JUndefined
  | Some p => JStr (path p)
  end.

(** The jobs created and dispatched, in order.  [queryIds] is [None] when
    the argument is null or undefined. *)
Definition runPageGenerationJobs (setting : jsnum) (queryIds : option IQueryIds)
    : list job :=
  let pageChunks := chunk (pageQueryIds <$> queryIds) (pageGenChunkSize setting) in
  (fun items => mkJob "GENERATE_PAGE" (item_path <$> items) []
                      ("gatsby", "4.10.1"))
  <$> pageChunks.

(** The settings with which pages are chunked: not a number, a zero, plus
    infinity, or a finite value of at least 1.  The others, minus infinity
    and the non-zero values below 1, give a chunk size of 0. *)
Definition chunks_pages (setting : jsnum) : bool :=
  match setting with
  | NaN => true
  | PosInfinity => true
  | NegInfinity => false
  | Finite num den => Z.eqb num 0%Z || Z.leb (Z.pos den) num
  end.

(** The chunk size in use, an integer. *)
Definition chunk_size (setting : jsnum) : Z :=
  toInteger (pageGenChunkSize setting).

(** * Adding a plugin to the config file

    [addPluginToConfig] and [GatsbyPluginCreate] of plugin-add-utils.ts.
    Babel, the file system and the lock are outside the sources: Babel's
    [transform] with the plugin of [BabelPluginAddPluginsToGatsbyConfig] is
    a parameter, [readConfigFile (root)] is taken to give the text that was
    last written to [getConfigPath (root)], and the lock on
    [gatsby-config.js] is exclusive. *)

Module ConfigFile.

(** Outcome of a call that can throw or reject. *)
Inductive result (A : Type) : Type :=
| Returned (a : A)
| Thrown.
Arguments Returned {A} a.
Arguments Thrown {A}.

Section ConfigFile.

(** The type of the [options] of a plugin. *)
Context {plugin_options : Type}.

Record IGatsbyPluginCreateInput : Type := mkInput {
  root : string;
  name : string;
  options : plugin_options;
  key : string
}.

(** The argument of [new BabelPluginAddPluginsToGatsbyConfig]. *)
Record babel_plugin : Type := mkBabelPlugin {
  pluginOrThemeName : string;
  plugin_opts : plugin_options;
  shouldAdd : bool;
  plugin_key : string
}.

Variable getConfigPath : string -> string.
Variable transform : string -> babel_plugin -> result string.

Definition addPluginToConfig (src : string) (input : IGatsbyPluginCreateInput)
    : result string :=
  let addPlugins := mkBabelPlugin (name input) (options input) true (key input) in
  transform src addPlugins.

(** Where a call of [GatsbyPluginCreate] stands. *)
Inductive phase : Type :=
| AwaitLock                     (* at [await lock] *)
| AwaitRead                     (* at [await readConfigFile] *)
| AwaitWrite (code : string)    (* at [await fs.writeFile] *)
| CallFulfilled
| CallRejected.

Record config_state : Type := mkConfig {
  files : string -> string;                       (* text by path *)
  config_lock : bool;                             (* the lock on gatsby-config.js *)
  creates : list (IGatsbyPluginCreateInput * phase);   (* the calls, in order *)
  written : list IGatsbyPluginCreateInput         (* completed writes, in order *)
}.

Inductive config_event : Type :=
| Create (input : IGatsbyPluginCreateInput)
| ConfigLockGranted (i : nat)
| ReadSettled (i : nat) (ok : bool)
| WriteSettled (i : nat) (ok : bool).

Definition write_file (fs : string -> string) (path code : string)
    : string -> string :=
  fun p => if String.eqb p path then code else fs p.

(** One step of the calls of [GatsbyPluginCreate] in progress.  A call that
    throws or whose await rejects ends rejected where it stands; [release]
    is only reached after the write. *)
Definition config_step (s : config_state) (e : config_event) : config_state :=
  match e with
  | Create input =>
    mkConfig (files s) (config_lock s) (creates s ++ [(input, AwaitLock)])
             (written s)
  | ConfigLockGranted i =>
    match config_lock s, creates s !! i with
    | false, Some (input, AwaitLock) =>
      mkConfig (files s) true (<[i := (input, AwaitRead)]> (creates s))
               (written s)
    | _, _ => s
    end
  | ReadSettled i ok =>
    match creates s !! i with
    | Some (input, AwaitRead) =>
      let next :=
        if ok then
          match addPluginToConfig (files s (getConfigPath (root input))) input with
          | Returned code => AwaitWrite code
          | Thrown => CallRejected
          end
        else CallRejected in
      mkConfig (files s) (config_lock s) (<[i := (input, next)]> (creates s))
               (written s)
    | _ => s
    end
  | WriteSettled i ok =>
    match creates s !! i with
    | Some (input, AwaitWrite code) =>
      if ok then
        mkConfig (write_file (files s) (getConfigPath (root input)) code) false
                 (<[i := (input, CallFulfilled)]> (creates s))
                 (written s ++ [input])
      else
        mkConfig (files s) (config_lock s)
                 (<[i := (input, CallRejected)]> (creates s)) (written s)
    | _ => s
    end
  end.

Definition config_run (evs : list config_event) (s : config_state)
    : config_state :=
  foldl config_step s evs.

Definition config_init (fs : string -> string) : config_state :=
  mkConfig fs false [] [].

(** The files after the plugin additions [inputs] were made one after the
    other, each on the text the one before left. *)
Definition replay (fs : string -> string)
    (inputs : list IGatsbyPluginCreateInput) : string -> string :=
  foldl (fun fs input =>
           match addPluginToConfig (fs (getConfigPath (root input))) input with
           | Returned code => write_file fs (getConfigPath (root input)) code
           | Thrown => fs
           end) fs inputs.

(** The call is between the grant of the lock and [release]. *)
Definition in_critical_section (c : IGatsbyPluginCreateInput * phase) : bool :=
  match c.2 with
  | AwaitRead | AwaitWrite _ => true
  | _ => false
  end.

Definition is_rejected (c : IGatsbyPluginCreateInput * phase) : bool :=
  match c.2 with
  | CallRejected => true
  | _ => false
  end.

(** What holds in every state: the calls between the grant of the lock and
    [release] are at most one, and then the lock is held; the code a call
    is about to write was made from the present text; after a rejection
    the lock is held with no call left to release it; the files are the
    replay of the completed writes. *)
Definition config_inv (fs0 : string -> string) (s : config_state) : Prop :=
  (forall i j ci cj,
     creates s !! i = Some ci -> creates s !! j = Some cj ->
     in_critical_section ci = true -> in_critical_section cj = true -> i = j)
  /\ (forall i c, creates s !! i = Some c -> in_critical_section c = true ->
                  config_lock s = true)
  /\ (forall i input code,
        creates s !! i = Some (input, AwaitWrite code) ->
        addPluginToConfig (files s (getConfigPath (root input))) input
        = Returned code)
  /\ (forall i c, creates s !! i = Some c -> is_rejected c = true ->
                  config_lock s = true
                  /\ forall j cj, creates s !! j = Some cj ->
                                  in_critical_section cj = false)
  /\ (forall p, files s p = replay fs0 (written s) p).

End ConfigFile.

End ConfigFile.

(** * The cache of base64 placeholders

    [getBase64Image] of the Contentful image code that follows
    plugin-add-utils.ts in the sources.  Numbers are kept abstract, with
    the two operations the function uses on them; [createUrl],
    [mimeTypeExtensions], [fetchRemoteFile] and [fs.readFile] are outside
    the sources: the first two are parameters, the last two are the load
    whose outcome is an event. *)

Module Base64Cache.

(** Truthiness of a string or [undefined]. *)
Definition truthy (v : jsval) : bool :=
  match v with
  | JUndefined => false
  | JStr EmptyString => false
  | JStr _ => true
  end.

(** [a || b] *)
Definition js_or (a b : jsval) : jsval := if truthy a then a else b.

(** The text before the first [/] and the text after it. *)
Fixpoint cut_at_slash (s : string) : string * option string :=
  match s with
  | EmptyString => (EmptyString, None)
  | String c rest =>
    if Ascii.eqb c "/"%char then (EmptyString, Some rest)
    else let (before, after) := cut_at_slash rest in (String c before, after)
  end.

(** [mimeType.split("/")[1]] *)
Definition split_second (mimeType : string) : jsval :=
  match (cut_at_slash mimeType).2 with
  | None => JUndefined
  | Some rest => JStr (cut_at_slash rest).1
  end.

Section Cache.

Context {number options_rest : Type}.

(** Truthiness of a number, the number 20, and [Math.floor(a / b)]. *)
Variable number_truthy : number -> bool.
Variable twenty : number.
Variable floor_div : number -> number -> number.

Record blurred_options : Type := mkBlurred {
  blurred_width : option number;
  blurred_toFormat : jsval
}.

Record transformer_options : Type := mkOptions {
  blurredOptions : option blurred_options;
  toFormat : jsval;
  width : option number;
  height : option number;
  other_options : options_rest
}.

Record asset : Type := mkAsset {
  mimeType : string;
  contentDigest : string
}.

Record image_props : Type := mkProps {
  image : asset;
  baseUrl : string;
  options : transformer_options;
  aspectRatio : number
}.

Variable createUrl : string -> transformer_options -> string.
Variable mimeTypeExtensions : string -> jsval.

(** The argument of [fetchRemoteFile]. *)
Record fetch_request : Type := mkFetch {
  fetch_url : string;
  fetch_directory : string;
  fetch_ext : jsval;
  fetch_cacheKey : string
}.

Inductive load_status : Type :=
| LoadPending
| LoadFulfilled
| LoadRejected.

(** A call of [loadImage]: its request, the format named in the data URL it
    makes, and how it stands. *)
Record load : Type := mkLoad {
  request : fetch_request;
  format : jsval;
  status : load_status
}.

Record cache_state : Type := mkCache {
  inFlightBase64Cache : gmap string nat;      (* url to load *)
  resolvedBase64Cache : gmap string string;   (* url to data URL *)
  loads : list load
}.

Definition cache_init : cache_state := mkCache ∅ ∅ [].

(** What [getBase64Image] returns: [null], a data URL, or a promise of the
    load with the given number (for the call that starts the load, the
    promise made from it by [then]). *)
Inductive answer : Type :=
| Null
| Body (body : string)
| PromiseOf (n : nat).

(** [imageProps.options.blurredOptions?.width || 20] *)
Definition placeholderWidth (o : transformer_options) : number :=
  match blurredOptions o with
  | Some b =>
    match blurred_width b with
    | Some w => if number_truthy w then w else twenty
    | None => twenty
    end
  | None => twenty
  end.

(** [imageProps.options.blurredOptions?.toFormat || imageProps.options.toFormat] *)
Definition placeholder_toFormat (o : transformer_options) : jsval :=
  js_or (match blurredOptions o with
         | Some b => blurred_toFormat b
         | None => JUndefined
         end) (toFormat o).

Definition requestUrl (p : image_props) : string :=
  let placeholderWidth := placeholderWidth (options p) in
  let imageOptions :=
    mkOptions (blurredOptions (options p)) (placeholder_toFormat (options p))
              (Some placeholderWidth)
              (Some (floor_div placeholderWidth (aspectRatio p)))
              (other_options (options p)) in
  createUrl (baseUrl p) imageOptions.

Definition getBase64Image (imageProps : option image_props) (directory : string)
    (s : cache_state) : answer * cache_state :=
  match imageProps with
  | None => (Null, s)
  | Some p =>
    match String.index 0 "images.ctfassets.net" (baseUrl p) with
    | None => (Null, s)
    | Some _ =>
      let originalFormat := split_second (mimeType (image p)) in
      let toFormat := placeholder_toFormat (options p) in
      let url := requestUrl p in
      let alreadyFetched := resolvedBase64Cache s !! url in
      match alreadyFetched with
      | Some (String c rest) => (Body (String c rest), s)
      | _ =>
        match inFlightBase64Cache s !! url with
        | Some n => (PromiseOf n, s)
        | None =>
          let n := length (loads s) in
          let loading :=
            mkLoad (mkFetch url directory
                            (mimeTypeExtensions (mimeType (image p)))
                            (contentDigest (image p)))
                   (js_or toFormat originalFormat) LoadPending in
          (PromiseOf n,
           mkCache (<[url := n]> (inFlightBase64Cache s))
                   (resolvedBase64Cache s) (loads s ++ [loading]))
        end
      end
    end
  end.

(** The load [n] ends: with the base64 text of the file, or rejected. *)
Definition load_settled (n : nat) (r : option string) (s : cache_state)
    : cache_state :=
  match loads s !! n with
  | Some (mkLoad req fmt LoadPending) =>
    match r with
    | Some base64 =>
      let body := "data:image/" +:+ ToString fmt +:+ ";base64," +:+ base64 in
      mkCache (delete (fetch_url req) (inFlightBase64Cache s))
              (<[fetch_url req := body]> (resolvedBase64Cache s))
              (<[n := mkLoad req fmt LoadFulfilled]> (loads s))
    | None =>
      mkCache (inFlightBase64Cache s) (resolvedBase64Cache s)
              (<[n := mkLoad req fmt LoadRejected]> (loads s))
    end
  | _ => s
  end.

Inductive cache_event : Type :=
| Call (imageProps : option image_props) (directory : string)
| LoadSettled (n : nat) (r : option string).

Definition cache_step (s : cache_state) (e : cache_event) : cache_state :=
  match e with
  | Call imageProps directory => (getBase64Image imageProps directory s).2
  | LoadSettled n r => load_settled n r s
  end.

Definition cache_run (evs : list cache_event) : cache_state :=
  foldl cache_step cache_init evs.

(** What holds of the two caches and the loads in every state. *)
Definition cache_inv (s : cache_state) : Prop :=
  NoDup (fetch_url ∘ request <$> loads s)
  /\ (forall n ld, loads s !! n = Some ld ->
        match status ld with
        | LoadFulfilled =>
          inFlightBase64Cache s !! fetch_url (request ld) = None
          /\ is_Some (resolvedBase64Cache s !! fetch_url (request ld))
        | _ => inFlightBase64Cache s !! fetch_url (request ld) = Some n
               /\ resolvedBase64Cache s !! fetch_url (request ld) = None
        end)
  /\ (forall url n, inFlightBase64Cache s !! url = Some n ->
        exists ld, loads s !! n = Some ld /\ fetch_url (request ld) = url)
  /\ (forall url body, resolvedBase64Cache s !! url = Some body ->
        String.prefix "data:image/" body = true
        /\ exists n ld, loads s !! n = Some ld /\ fetch_url (request ld) = url).

End Cache.

End Base64Cache.

(** * Properties *)

(** ** Grouping *)

Lemma groupBy_snoc {A : Type} (l : list A) (x : A) (f : A -> jsval) :
  groupBy (l ++ [x]) f =
  let key := ToString (f x) in
  match groupBy l f !! key with
  | Some arr => <[key := arr ++ [x]]> (groupBy l f)
  | None => <[key := [x]]> (groupBy l f)
  end.
Proof. unfold groupBy. rewrite foldl_snoc. reflexivity. Qed.

Lemma groupBy_lookup {A : Type} (l : list A) (f : A -> jsval) (k : string) :
  groupBy l f !! k =
  match with_key f k l with
  | [] => None
  | g => Some g
  end.
Proof.
  induction l as [|x l IH] using rev_ind.
  - reflexivity.
  - rewrite groupBy_snoc. cbn zeta. unfold with_key in *.
    rewrite List.filter_app. cbn [List.filter].
    destruct (String.eqb_spec (ToString (f x)) k) as [->|Hne].
    + rewrite IH.
      destruct (List.filter _ l) as [|y g]; rewrite lookup_insert_eq; reflexivity.
    + rewrite app_nil_r.
      destruct (groupBy l f !! ToString (f x));
        rewrite lookup_insert_ne by assumption; exact IH.
Qed.

Lemma executeInstalls_prefix_cons stored root first rest :
  executeInstalls_prefix stored root (first :: rest) =
  let group := serviced_group (first :: rest) in
  Normal (kept group (first :: rest),
          mkFlush group
                  (generateClientCommands (PACKAGE_MANAGER stored)
                     (res_dependencyType (resource first))
                     (getPackageNames (resource <$> group)))
                  root).
Proof.
  unfold executeInstalls_prefix. rewrite groupBy_lookup.
  unfold serviced_group, with_key. cbn [List.filter].
  rewrite String.eqb_refl. reflexivity.
Qed.

(** ** Promises are tracked without duplicates *)

Lemma strict_eq_refl v : strict_eq v v = true.
Proof. destruct v; [reflexivity | apply String.eqb_refl]. Qed.

Lemma strict_eq_eq a b : strict_eq a b = true <-> a = b.
Proof.
  destruct a, b; cbn; try (split; [discriminate | congruence]).
  - tauto.
  - rewrite String.eqb_eq. split; congruence.
Qed.

Lemma filter_split_submseteq {A : Type} (P Q : A -> bool) (l : list A) :
  (forall x, x ∈ l -> P x = true -> Q x = true -> False) ->
  List.filter P l ++ List.filter Q l ⊆+ l.
Proof.
  induction l as [|x l IH]; intros Hdis; [reflexivity |].
  assert (Hl : List.filter P l ++ List.filter Q l ⊆+ l).
  { apply IH. intros y Hy. apply Hdis. by right. }
  cbn [List.filter].
  destruct (P x) eqn:HP, (Q x) eqn:HQ.
  - exfalso. eapply Hdis; [left | |]; eassumption.
  - cbn. by constructor.
  - rewrite <- Permutation_middle. by constructor.
  - by constructor.
Qed.

Lemma group_member_not_kept (installs : list install) (x : install) :
  x ∈ installs ->
  negb (existsb (fun p => strict_eq (res_name (resource x)) (res_name (resource p)))
                (serviced_group installs)) = true ->
  String.eqb (ToString (res_dependencyType (resource x)))
             (ToString (res_dependencyType
                          (resource (List.hd x installs)))) = true ->
  False.
Proof.
  intros Hin Hk Hg. apply negb_true_iff in Hk.
  assert (Hex : existsb (fun p => strict_eq (res_name (resource x))
                                            (res_name (resource p)))
                        (serviced_group installs) = true).
  { apply existsb_exists. exists x. split; [| apply strict_eq_refl].
    destruct installs as [|first rest]; [by apply elem_of_nil in Hin |].
    unfold serviced_group, with_key. apply filter_In. split.
    - by apply list_elem_of_In.
    - exact Hg. }
  congruence.
Qed.

Lemma kept_group_submseteq (installs : list install) :
  (promise <$> kept (serviced_group installs) installs)
  ++ (promise <$> serviced_group installs) ⊆+ promise <$> installs.
Proof.
  rewrite <- fmap_app. apply fmap_submseteq.
  destruct installs as [|first rest]; [reflexivity |].
  unfold kept. unfold serviced_group at 2. unfold with_key.
  apply filter_split_submseteq. intros x Hin Hk Hg.
  exact (group_member_not_kept (first :: rest) x Hin Hk Hg).
Qed.

Lemma flush_promises_snoc fs f :
  flush_promises (fs ++ [f]) = flush_promises fs ++ (promise <$> packagesToInstall f).
Proof.
  unfold flush_promises. rewrite bind_app, bind_singleton. reflexivity.
Qed.

Lemma flush_promises_delete fs k f :
  fs !! k = Some f ->
  flush_promises fs ≡ₚ (promise <$> packagesToInstall f) ++ flush_promises (delete k fs).
Proof.
  intros Hk. unfold flush_promises.
  rewrite (delete_Permutation fs k f Hk) at 1. by rewrite bind_cons.
Qed.

Lemma fst_outsideResolve (l : list install) :
  (outsideResolve <$> l).*1 = promise <$> l.
Proof. rewrite <- list_fmap_compose. reflexivity. Qed.

Lemma fst_outsideReject payload (l : list install) :
  (outsideReject payload <$> l).*1 = promise <$> l.
Proof. rewrite <- list_fmap_compose. reflexivity. Qed.

Section Tracking.

Variable stored : jsval.

Lemma executeInstalls_unfold root s :
  executeInstalls stored root s =
  match installs s with
  | [] =>
    mkState (installs s) (timer s) (clock s) (next_promise s) (lock_held s)
            (awaiting_lock s) (awaiting_execa s) (settle_calls s)
            (invocations s) (fired s) (S (thrown s))
  | first :: _ =>
    let group := serviced_group (installs s) in
    mkState (kept group (installs s)) (timer s) (clock s) (next_promise s)
            (lock_held s)
            (awaiting_lock s
               ++ [mkFlush group
                     (generateClientCommands (PACKAGE_MANAGER stored)
                        (res_dependencyType (resource first))
                        (getPackageNames (resource <$> group)))
                     root])
            (awaiting_execa s) (settle_calls s) (invocations s) (fired s)
            (thrown s)
  end.
Proof.
  unfold executeInstalls. destruct (installs s) as [|first rest] eqn:E.
  - reflexivity.
  - rewrite executeInstalls_prefix_cons. reflexivity.
Qed.

Lemma next_promise_executeInstalls root s :
  next_promise (executeInstalls stored root s) = next_promise s.
Proof. rewrite executeInstalls_unfold. by destruct (installs s). Qed.

Lemma settle_calls_executeInstalls root s :
  settle_calls (executeInstalls stored root s) = settle_calls s.
Proof. rewrite executeInstalls_unfold. by destruct (installs s). Qed.

Lemma tracked_executeInstalls root s :
  tracked (executeInstalls stored root s) ⊆+ tracked s.
Proof.
  rewrite executeInstalls_unfold. destruct (installs s) as [|first rest] eqn:E.
  - unfold tracked. cbn. rewrite E. reflexivity.
  - unfold tracked. cbn. rewrite E, flush_promises_snoc.
    pose proof (kept_group_submseteq (first :: rest)) as H.
    apply submseteq_Permutation in H as [extra H]. rewrite H.
    solve_submseteq.
Qed.

Lemma tracked_lock_granted k s :
  tracked (lock_granted stored k s) ≡ₚ tracked s.
Proof.
  unfold lock_granted. destruct (lock_held s); [reflexivity |].
  destruct (awaiting_lock s !! k) as [f|] eqn:Hk; [| reflexivity].
  unfold tracked. cbn.
  rewrite flush_promises_snoc, (flush_promises_delete _ _ _ Hk).
  solve_Permutation.
Qed.

Lemma tracked_execa_settled k r s :
  tracked (execa_settled stored k r s) ⊆+ tracked s.
Proof.
  unfold execa_settled.
  destruct (awaiting_execa s !! k) as [f|] eqn:Hk; [| reflexivity].
  destruct r as [|m].
  - match goal with
    | |- tracked (if _ then executeInstalls _ _ ?s' else _) ⊆+ _ =>
      assert (Hs' : tracked s' ≡ₚ tracked s)
    end.
    { unfold tracked. cbn.
      rewrite fmap_app, fst_outsideResolve, (flush_promises_delete _ _ _ Hk).
      solve_Permutation. }
    destruct (Nat.ltb _ _).
    + etrans; [apply tracked_executeInstalls |]. by rewrite Hs'.
    + by rewrite Hs'.
  - unfold tracked. cbn.
    rewrite fmap_app, fst_outsideReject, (flush_promises_delete _ _ _ Hk).
    apply Permutation_submseteq. solve_Permutation.
Qed.

Lemma tracked_tick s : tracked (tick stored s) ⊆+ tracked s.
Proof.
  unfold tick. destruct (debounce_expire _ _) as [timer' [root|]].
  - etrans; [apply tracked_executeInstalls | reflexivity].
  - reflexivity.
Qed.

Lemma tracked_createInstall root name s :
  tracked (createInstall root name s) ≡ₚ next_promise s :: tracked s.
Proof.
  unfold tracked, createInstall. cbn. rewrite fmap_app. cbn.
  solve_Permutation.
Qed.

Lemma next_promise_step s e :
  next_promise s <= next_promise (step stored s e).
Proof.
  destruct e as [root name| |k|k r]; cbn.
  - lia.
  - unfold tick. destruct (debounce_expire _ _) as [timer' [root|]];
      [rewrite next_promise_executeInstalls |]; cbn; lia.
  - unfold lock_granted. destruct (lock_held s); [lia |].
    destruct (awaiting_lock s !! k); cbn; lia.
  - unfold execa_settled. destruct (awaiting_execa s !! k); [| lia].
    destruct r; [| cbn; lia].
    destruct (Nat.ltb _ _); [rewrite next_promise_executeInstalls |]; cbn; lia.
Qed.

(** A step tracks no promise that was not tracked before, except the one a
    call of [createInstall] makes. *)
Lemma tracked_step s e p :
  p ∈ tracked (step stored s e) -> p ∈ tracked s \/ p = next_promise s.
Proof.
  destruct e as [root name| |k|k r]; unfold step; intros Hp.
  - rewrite tracked_createInstall in Hp. apply elem_of_cons in Hp. tauto.
  - left. eapply elem_of_submseteq; [exact Hp | apply tracked_tick].
  - left. by rewrite tracked_lock_granted in Hp.
  - left. eapply elem_of_submseteq; [exact Hp | apply tracked_execa_settled].
Qed.

Lemma NoDup_submseteq_inv {A : Type} (l k : list A) :
  l ⊆+ k -> NoDup k -> NoDup l.
Proof.
  intros H Hk. apply submseteq_Permutation in H as [extra H].
  rewrite H in Hk. by apply NoDup_app in Hk as [? _].
Qed.

Lemma wf_shrink s s' :
  tracked s' ⊆+ tracked s -> next_promise s <= next_promise s' -> wf s -> wf s'.
Proof.
  intros Hsub Hnext [Hnd Hlt]. split.
  - eapply NoDup_submseteq_inv; eassumption.
  - apply Forall_forall. intros p Hp.
    rewrite Forall_forall in Hlt.
    specialize (Hlt p (elem_of_submseteq _ _ _ Hp Hsub)). lia.
Qed.

Lemma wf_step s e : wf s -> wf (step stored s e).
Proof.
  intros Hwf. pose proof (next_promise_step s e) as Hnext.
  destruct e as [root name| |k|k r]; unfold step in *.
  - destruct Hwf as [Hnd Hlt]. rewrite Forall_forall in Hlt. split.
    + rewrite tracked_createInstall. apply NoDup_cons. split; [| exact Hnd].
      intros Hin. specialize (Hlt _ Hin). lia.
    + rewrite tracked_createInstall. apply Forall_cons. split; [cbn; lia |].
      apply Forall_forall. intros p Hp. specialize (Hlt _ Hp). cbn. lia.
  - apply (wf_shrink s); [apply tracked_tick | exact Hnext | exact Hwf].
  - apply (wf_shrink s); [by rewrite tracked_lock_granted | exact Hnext | exact Hwf].
  - apply (wf_shrink s); [apply tracked_execa_settled | exact Hnext | exact Hwf].
Qed.

Lemma wf_init : wf init.
Proof. split; cbn; constructor. Qed.

Lemma wf_run evs s : wf s -> wf (run stored evs s).
Proof.
  revert s. induction evs as [|e evs IH]; intros s Hwf; [exact Hwf |].
  cbn. apply IH, wf_step, Hwf.
Qed.

Lemma wf_reachable s : reachable stored s -> wf s.
Proof. intros [evs ->]. apply wf_run, wf_init. Qed.

(** No promise is ever passed to a settling call twice. *)
Lemma settled_at_most_once s :
  reachable stored s -> NoDup (settle_calls s).*1.
Proof.
  intros Hr. destruct (wf_reachable s Hr) as [Hnd _].
  unfold tracked in Hnd. rewrite !app_assoc in Hnd.
  by apply NoDup_app in Hnd as (_ & _ & ?).
Qed.

End Tracking.

(** ** Settling a group *)

Lemma settlement_app_fresh calls more p :
  p ∉ calls.*1 -> settlement (calls ++ more) p = settlement more p.
Proof.
  induction calls as [|[q o] calls IH]; intros Hp; [reflexivity |].
  cbn in *. apply not_elem_of_cons in Hp as [Hne Hp].
  destruct (Nat.eqb_spec q p); [congruence | by apply IH].
Qed.

Lemma settlement_uniform (o : outcome) (members : list install) (p : install) :
  p ∈ members ->
  settlement ((fun q => (promise q, o)) <$> members) (promise p) = Some o.
Proof.
  induction members as [|q members IH]; intros Hp.
  - by apply elem_of_nil in Hp.
  - cbn. destruct (Nat.eqb_spec (promise q) (promise p)); [reflexivity |].
    apply elem_of_cons in Hp as [->|Hp]; [congruence | by apply IH].
Qed.

Lemma settle_calls_execa_settled stored k r s f :
  awaiting_execa s !! k = Some f ->
  settle_calls (execa_settled stored k r s) =
  settle_calls s ++ ((fun q => (promise q, outcome_of r)) <$> packagesToInstall f).
Proof.
  intros Hk. unfold execa_settled. rewrite Hk. destruct r as [|m].
  - destruct (Nat.ltb _ _); [rewrite settle_calls_executeInstalls |]; reflexivity.
  - reflexivity.
Qed.

Lemma running_member_unsettled s k f p :
  wf s -> awaiting_execa s !! k = Some f -> p ∈ packagesToInstall f ->
  promise p ∉ (settle_calls s).*1.
Proof.
  intros [Hnd _] Hk Hp. unfold tracked in Hnd.
  apply NoDup_app in Hnd as (_ & _ & Hnd).
  apply NoDup_app in Hnd as (_ & _ & Hnd).
  apply NoDup_app in Hnd as (_ & Hdis & _). apply Hdis.
  unfold flush_promises. apply list_elem_of_bind. exists f. split.
  - by apply list_elem_of_fmap_2.
  - by eapply list_elem_of_lookup_2.
Qed.

Lemma member_settled stored s k f r p :
  reachable stored s -> awaiting_execa s !! k = Some f ->
  p ∈ packagesToInstall f ->
  settlement (settle_calls (execa_settled stored k r s)) (promise p)
  = Some (outcome_of r).
Proof.
  intros Hr Hk Hp. rewrite (settle_calls_execa_settled _ _ _ _ _ Hk).
  rewrite settlement_app_fresh.
  - by apply settlement_uniform.
  - eapply running_member_unsettled; eauto using wf_reachable.
Qed.

(** C6: when the installer call of a flush pass ends, the promises of all
    members of its group get the same state: all are resolved, without a
    payload, when the call succeeded, and all are rejected, with one
    payload, when it failed. *)
Theorem C6_group_outcome_uniform stored s k f r :
  reachable stored s ->
  awaiting_execa s !! k = Some f ->
  let s' := execa_settled stored k r s in
  (r = ExecaOk /\
   forall p, p ∈ packagesToInstall f ->
             settlement (settle_calls s') (promise p) = Some Resolved)
  \/
  (exists shortMessage,
     r = ExecaFailed shortMessage /\
     forall p, p ∈ packagesToInstall f ->
               settlement (settle_calls s') (promise p)
               = Some (Rejected (rejection_payload shortMessage))).
Proof.
  intros Hr Hk s'. destruct r as [|m].
  - left. split; [reflexivity |]. intros p Hp.
    exact (member_settled stored s k f ExecaOk p Hr Hk Hp).
  - right. exists m. split; [reflexivity |]. intros p Hp.
    exact (member_settled stored s k f (ExecaFailed m) p Hr Hk Hp).
Qed.

Lemma C6_group_outcome_uniform_witness :
  let s := run JUndefined one_request_running init in
  let f := mkFlush [mkInstall 0 (ResString "pkg-a")]
                   (Some ["add"; "-W"; "undefined@undefined"]) "/site" in
  reachable JUndefined s /\ awaiting_execa s !! 0 = Some f /\
  settlement (settle_calls (execa_settled JUndefined 0 ExecaOk s)) 0
  = Some Resolved.
Proof.
  intros s f.
  assert (Hr : reachable JUndefined s) by (exists one_request_running; reflexivity).
  assert (Hk : awaiting_execa s !! 0 = Some f) by reflexivity.
  split; [exact Hr | split; [exact Hk |]].
  destruct (C6_group_outcome_uniform JUndefined s 0 f ExecaOk Hr Hk)
    as [[_ H] | [m [Hm _]]].
  - apply (H (mkInstall 0 (ResString "pkg-a"))). by left.
  - discriminate Hm.
Defined.

(** ** The rejection payload *)

Lemma append_assoc (a b c : string) : (a +:+ b) +:+ c = a +:+ b +:+ c.
Proof.
  induction a as [|x a IH]; [reflexivity |].
  change (String x ((a +:+ b) +:+ c) = String x (a +:+ b +:+ c)).
  by rewrite IH.
Qed.

Lemma payload_has_marker m : occurs_in installationError (rejection_payload m).
Proof.
  destruct m as [|msg].
  - exists ("{" +:+ json_quote "installationError" +:+ ":" +:+ dquote),
           (dquote +:+ "}").
    reflexivity.
  - exists ("{" +:+ json_quote "message" +:+ ":" +:+ json_quote msg +:+ ","
            +:+ json_quote "installationError" +:+ ":" +:+ dquote),
           (dquote +:+ "}").
    unfold rejection_payload.
    change (json_quote installationError)
      with (dquote +:+ installationError +:+ dquote).
    rewrite !append_assoc. reflexivity.
Qed.

Lemma payload_has_message msg :
  occurs_in (json_quote msg) (rejection_payload (JStr msg)).
Proof.
  exists ("{" +:+ json_quote "message" +:+ ":"),
         ("," +:+ json_quote "installationError" +:+ ":"
          +:+ json_quote installationError +:+ "}").
  unfold rejection_payload. rewrite !append_assoc. reflexivity.
Qed.

(** C8: when the installer call of a flush pass fails, the promise of every
    member of its group is rejected with the JSON text of an object that
    holds the installer's short message and the marker text; the failed
    group is not queued again, no activation is started for it and the
    installer is not called again. *)
Theorem C8_failure_rejects_group stored s k f shortMessage :
  reachable stored s ->
  awaiting_execa s !! k = Some f ->
  let s' := execa_settled stored k (ExecaFailed shortMessage) s in
  (forall p, p ∈ packagesToInstall f ->
             settlement (settle_calls s') (promise p)
             = Some (Rejected (rejection_payload shortMessage)))
  /\ occurs_in "Could not install package" (rejection_payload shortMessage)
  /\ (forall msg, shortMessage = JStr msg ->
                  occurs_in (json_quote msg) (rejection_payload shortMessage))
  /\ installs s' = installs s
  /\ awaiting_lock s' = awaiting_lock s
  /\ awaiting_execa s' = delete k (awaiting_execa s)
  /\ invocations s' = invocations s.
Proof.
  intros Hr Hk s'. split; [| split; [| split]].
  - intros p Hp.
    exact (member_settled stored s k f (ExecaFailed shortMessage) p Hr Hk Hp).
  - apply payload_has_marker.
  - intros msg ->. apply payload_has_message.
  - subst s'. unfold execa_settled. rewrite Hk. cbn. tauto.
Qed.

Lemma C8_failure_rejects_group_witness :
  let s := run JUndefined one_request_running init in
  let f := mkFlush [mkInstall 0 (ResString "pkg-a")]
                   (Some ["add"; "-W"; "undefined@undefined"]) "/site" in
  reachable JUndefined s /\ awaiting_execa s !! 0 = Some f /\
  settlement
    (settle_calls (execa_settled JUndefined 0 (ExecaFailed (JStr "exit 1")) s)) 0
  = Some (Rejected (rejection_payload (JStr "exit 1"))).
Proof.
  intros s f.
  assert (Hr : reachable JUndefined s) by (exists one_request_running; reflexivity).
  assert (Hk : awaiting_execa s !! 0 = Some f) by reflexivity.
  split; [exact Hr | split; [exact Hk |]].
  destruct (C8_failure_rejects_group JUndefined s 0 f (JStr "exit 1") Hr Hk)
    as [H _].
  apply (H (mkInstall 0 (ResString "pkg-a"))). by left.
Defined.

(** ** The installer command *)

Lemma generateClientCommands_other pm depType packageNames :
  pm <> "yarn" -> pm <> "npm" ->
  generateClientCommands pm depType packageNames = None.
Proof.
  intros Hy Hn. unfold generateClientCommands.
  destruct (String.eqb_spec pm "yarn"); [contradiction |].
  destruct (String.eqb_spec pm "npm"); [contradiction | reflexivity].
Qed.

Lemma getPackageNames_entry (group : list install) :
  getPackageNames (resource <$> group) = entry <$> group.
Proof. unfold getPackageNames. rewrite <- list_fmap_compose. reflexivity. Qed.

(** C10: when the configured package manager is neither yarn nor npm,
    command generation returns no argument list whatever the classification
    and the names are, and a flush pass on a non-empty queue still reaches
    the installer call, made with that absent argument list. *)
Theorem C10_unknown_manager_no_arguments stored :
  PACKAGE_MANAGER stored <> "yarn" ->
  PACKAGE_MANAGER stored <> "npm" ->
  (forall depType packageNames,
     generateClientCommands (PACKAGE_MANAGER stored) depType packageNames = None)
  /\
  (forall root s first rest,
     installs s = first :: rest ->
     lock_held s = false ->
     let s1 := executeInstalls stored root s in
     awaiting_lock s1
     = awaiting_lock s ++ [mkFlush (serviced_group (installs s)) None root]
     /\ invocations (lock_granted stored (length (awaiting_lock s)) s1)
        = invocations s ++ [(PACKAGE_MANAGER stored, None, root)]).
Proof.
  intros Hy Hn. split.
  - intros. by apply generateClientCommands_other.
  - intros root s first rest E Hfree s1. subst s1.
    rewrite executeInstalls_unfold, E. cbn zeta.
    rewrite generateClientCommands_other by assumption.
    split; [reflexivity |].
    unfold lock_granted. cbn. rewrite Hfree.
    rewrite list_lookup_middle by reflexivity. reflexivity.
Qed.

Lemma C10_unknown_manager_no_arguments_witness :
  PACKAGE_MANAGER (JStr "pnpm") <> "yarn" /\
  PACKAGE_MANAGER (JStr "pnpm") <> "npm" /\
  generateClientCommands (PACKAGE_MANAGER (JStr "pnpm")) (JStr "development")
                         ["pkg@1.0.0"] = None.
Proof.
  assert (Hy : PACKAGE_MANAGER (JStr "pnpm") <> "yarn") by discriminate.
  assert (Hn : PACKAGE_MANAGER (JStr "pnpm") <> "npm") by discriminate.
  split; [exact Hy | split; [exact Hn |]].
  apply (C10_unknown_manager_no_arguments (JStr "pnpm") Hy Hn).
Defined.

(** C5, as amended: with yarn or npm configured, a flush pass on a non-empty
    queue whose serviced requests are objects with a string [name] and a
    string [version] builds one argument list: the install verb of the tool
    ([add -W] for yarn, [install] for npm), then the tool's dev flag exactly
    when the classification of the group is [development], then one entry
    [name@version] for every request of the group, made of that request's
    name and version, in queue order, repeated entries included. *)
Theorem C5_one_entry_per_request stored root first rest :
  PACKAGE_MANAGER stored = "yarn" \/ PACKAGE_MANAGER stored = "npm" ->
  forallb named_object (serviced_group (first :: rest)) = true ->
  let group := serviced_group (first :: rest) in
  let yarn := String.eqb (PACKAGE_MANAGER stored) "yarn" in
  let verb := if yarn then ["add"; "-W"] else ["install"] in
  let flag :=
    if strict_eq (res_dependencyType (resource first)) (JStr "development")
    then [if yarn then "--dev" else "--save-dev"] else [] in
  (exists installs',
     executeInstalls_prefix stored root (first :: rest)
     = Normal (installs',
               mkFlush group (Some (verb ++ flag ++ (entry <$> group))) root))
  /\ forall p, p ∈ group ->
       exists name version dependencyType,
         resource p = ResObject (JStr name) (JStr version) dependencyType
         /\ entry p = name +:+ "@" +:+ version.
Proof.
  intros Hpm Hobj group yarn verb flag. split.
  - eexists.
    rewrite executeInstalls_prefix_cons. cbn zeta. fold group.
    rewrite getPackageNames_entry. do 3 f_equal.
    subst yarn verb flag. unfold generateClientCommands.
    destruct Hpm as [-> | ->]; cbn;
      destruct (strict_eq _ _); reflexivity.
  - intros p Hp. rewrite forallb_forall in Hobj.
    specialize (Hobj p ltac:(by apply list_elem_of_In)).
    unfold named_object in Hobj. unfold entry.
    destruct (resource p) as [s | [|name] [|version] d]; try discriminate.
    exists name, version, d. split; reflexivity.
Qed.

Lemma C5_one_entry_per_request_witness :
  (PACKAGE_MANAGER (JStr "npm") = "yarn" \/ PACKAGE_MANAGER (JStr "npm") = "npm")
  /\ forallb named_object
       (serviced_group [mkInstall 0 pkg_development; mkInstall 1 pkg_development])
     = true
  /\ exists installs',
       executeInstalls_prefix (JStr "npm") "/site"
         [mkInstall 0 pkg_development; mkInstall 1 pkg_development]
       = Normal (installs',
                 mkFlush [mkInstall 0 pkg_development; mkInstall 1 pkg_development]
                         (Some ["install"; "--save-dev"; "pkg@2.0.0"; "pkg@2.0.0"])
                         "/site").
Proof.
  assert (H : PACKAGE_MANAGER (JStr "npm") = "yarn"
              \/ PACKAGE_MANAGER (JStr "npm") = "npm") by (right; reflexivity).
  assert (Hobj : forallb named_object
                   (serviced_group
                      [mkInstall 0 pkg_development; mkInstall 1 pkg_development])
                 = true) by reflexivity.
  split; [exact H | split; [exact Hobj |]].
  exact (proj1 (C5_one_entry_per_request (JStr "npm") "/site"
                  (mkInstall 0 pkg_development) [mkInstall 1 pkg_development]
                  H Hobj)).
Defined.

(** C5, as worded, fails: two requests of one group for the same package
    put its name into the argument list twice. *)
Lemma C5_each_name_once_counterexample :
  ~ each_name_once JUndefined
      [mkInstall 0 pkg_production; mkInstall 1 pkg_production].
Proof.
  intros H.
  destruct (H "/site" _ _ eq_refl) as [args [Hargs Hcount]].
  injection Hargs as <-.
  specialize (Hcount (mkInstall 0 pkg_production) ltac:(by left)).
  vm_compute in Hcount. discriminate Hcount.
Qed.

(** ** What a flush pass removes from the queue *)

(** C2, at a failing input: the queue holds a production request and a
    development request for the same package name.  The flush pass services
    the production group, which has one member, and its filter removes both
    requests from the queue. *)
Theorem C2_same_name_request_removed :
  let s := run JUndefined same_name_two_groups init in
  executeInstalls_prefix JUndefined "/site"
    [mkInstall 0 pkg_production; mkInstall 1 pkg_development]
  = Normal ([], mkFlush [mkInstall 0 pkg_production]
                        (Some ["add"; "-W"; "pkg@1.0.0"]) "/site")
  /\ installs s = []
  /\ awaiting_lock s = [mkFlush [mkInstall 0 pkg_production]
                                (Some ["add"; "-W"; "pkg@1.0.0"]) "/site"]
  /\ awaiting_execa s = [].
Proof. vm_compute. repeat split; reflexivity. Qed.

(** ** The lock on package.json *)

Lemma lock_after_settled stored s k f r :
  awaiting_execa s !! k = Some f ->
  lock_held (execa_settled stored k r s)
  = match r with ExecaOk => false | ExecaFailed _ => lock_held s end.
Proof.
  intros Hk. unfold execa_settled. rewrite Hk. destruct r as [|m].
  - destruct (Nat.ltb _ _); [rewrite executeInstalls_unfold |]; cbn;
      [destruct (installs s) |]; reflexivity.
  - reflexivity.
Qed.

(** C3, at a failing input: one request is queued, its flush pass gets the
    lock and calls the installer, and the installer fails.  The pass is
    over, the request is rejected, and the lock is still held. *)
Theorem C3_lock_held_after_failed_flush :
  let s := run JUndefined
             (one_request_running ++ [ExecaSettled 0 (ExecaFailed (JStr "exit 1"))])
             init in
  awaiting_lock s = [] /\ awaiting_execa s = []
  /\ settlement (settle_calls s) 0
     = Some (Rejected (rejection_payload (JStr "exit 1")))
  /\ lock_held s = true
  /\ lock_held (run JUndefined (one_request_running ++ [ExecaSettled 0 ExecaOk]) init)
     = false.
Proof. vm_compute. repeat split; reflexivity. Qed.

(** ** Draining the queue *)

(** C4, at a failing input: a second request is queued while the installer
    runs for the first.  When the installer fails, the queue still holds
    the second request and no flush pass is started for it; when the
    installer succeeds, a flush pass for it is started at once. *)
Theorem C4_no_flush_after_failure :
  let s := run JUndefined request_during_install init in
  let failed := execa_settled JUndefined 0 (ExecaFailed (JStr "exit 1")) s in
  let succeeded := execa_settled JUndefined 0 ExecaOk s in
  installs s = [mkInstall 1 (ResString "pkg-b")]
  /\ installs failed = [mkInstall 1 (ResString "pkg-b")]
  /\ awaiting_lock failed = [] /\ awaiting_execa failed = []
  /\ installs succeeded = []
  /\ awaiting_lock succeeded
     = [mkFlush [mkInstall 1 (ResString "pkg-b")]
                (Some ["add"; "-W"; "undefined@undefined"]) "/site"].
Proof. vm_compute. repeat split; reflexivity. Qed.

(** ** A flush pass on an empty queue *)

(** C9: on an empty queue the prefix of a flush pass throws, on a non-empty
    queue it does not; and the empty case is reached: a request made while
    the installer runs re-arms the timer, the running pass then drains the
    queue by its immediate call, and the timer expires on an empty queue. *)
Theorem C9_flush_on_empty_queue :
  (forall stored root, executeInstalls_prefix stored root [] = TypeError)
  /\ (forall stored root first rest,
        exists r, executeInstalls_prefix stored root (first :: rest) = Normal r)
  /\ (let s := run JUndefined
                 (request_during_install ++ [ExecaSettled 0 ExecaOk]) init in
      installs s = [] /\ timer s = Some (50, "/site") /\ clock s = 25
      /\ thrown s = 0
      /\ thrown (run JUndefined (replicate 25 Tick) s) = 1
      /\ fired (run JUndefined (replicate 25 Tick) s) = [25; 50]).
Proof.
  split; [| split].
  - reflexivity.
  - intros. rewrite executeInstalls_prefix_cons. eexists. reflexivity.
  - vm_compute. repeat split; reflexivity.
Qed.

(** ** Requests that are never settled *)

Lemma settlement_untracked calls p : p ∉ calls.*1 -> settlement calls p = None.
Proof.
  intros Hp. rewrite <- (app_nil_r calls). by rewrite settlement_app_fresh.
Qed.

(** A promise made earlier that the scheduler has lost track of stays
    lost. *)
Lemma untracked_forever stored evs s p :
  p < next_promise s -> p ∉ tracked s -> p ∉ tracked (run stored evs s).
Proof.
  revert s. induction evs as [|e evs IH]; intros s Hlt Hp; [exact Hp |].
  cbn. apply IH.
  - pose proof (next_promise_step stored s e). lia.
  - intros Hin. apply tracked_step in Hin as [Hin | ->]; [contradiction | lia].
Qed.

Lemma untracked_never_settled stored evs s p :
  p < next_promise s -> p ∉ tracked s ->
  settlement (settle_calls (run stored evs s)) p = None.
Proof.
  intros Hlt Hp. apply settlement_untracked. intros Hin.
  apply (untracked_forever stored evs s p Hlt Hp).
  unfold tracked. rewrite !elem_of_app. tauto.
Qed.

(** While the lock is held and no installer call is running, no step
    settles anything, and this stays so. *)
Lemma stuck_step stored s e :
  lock_held s = true -> awaiting_execa s = [] ->
  lock_held (step stored s e) = true /\ awaiting_execa (step stored s e) = []
  /\ settle_calls (step stored s e) = settle_calls s.
Proof.
  intros Hl Ha. destruct e as [root name| |k|k r]; unfold step.
  - cbn. tauto.
  - unfold tick. destruct (debounce_expire _ _) as [timer' [root|]].
    + rewrite executeInstalls_unfold. cbn. destruct (installs s); cbn; tauto.
    + cbn. tauto.
  - unfold lock_granted. rewrite Hl. tauto.
  - unfold execa_settled. rewrite Ha. cbn. tauto.
Qed.

Lemma stuck_forever stored evs s :
  lock_held s = true -> awaiting_execa s = [] ->
  settle_calls (run stored evs s) = settle_calls s.
Proof.
  revert s. induction evs as [|e evs IH]; intros s Hl Ha; [reflexivity |].
  destruct (stuck_step stored s e Hl Ha) as (Hl' & Ha' & Hs).
  change (run stored (e :: evs) s) with (run stored evs (step stored s e)).
  rewrite IH by assumption. exact Hs.
Qed.

(** C1, at two failing inputs.  First: a production request and a
    development request for the same package name; the flush pass of the
    production group removes the development request from the queue without
    taking it into its group, and nothing that happens later settles it.
    Second: the installer fails for one request, then another request is
    made; its flush pass removes it from the queue and waits for the lock,
    which the failed pass still holds, and nothing that happens later
    settles it. *)
Theorem C1_request_never_settled :
  (let s := run JUndefined same_name_two_groups init in
   installs s = []
   /\ awaiting_lock s = [mkFlush [mkInstall 0 pkg_production]
                                 (Some ["add"; "-W"; "pkg@1.0.0"]) "/site"]
   /\ awaiting_execa s = []
   /\ forall evs, settlement (settle_calls (run JUndefined evs s)) 1 = None)
  /\
  (let s := run JUndefined request_after_failure init in
   installs s = []
   /\ awaiting_lock s = [mkFlush [mkInstall 1 (ResString "pkg-b")]
                                 (Some ["add"; "-W"; "undefined@undefined"]) "/site"]
   /\ awaiting_execa s = []
   /\ forall evs, settlement (settle_calls (run JUndefined evs s)) 1 = None).
Proof.
  split; intros s.
  - split; [reflexivity | split; [reflexivity | split; [reflexivity |]]].
    intros evs. apply untracked_never_settled.
    + vm_compute. lia.
    + vm_compute. intros H. repeat (apply elem_of_cons in H as [H | H]; [discriminate |]).
      by apply elem_of_nil in H.
  - split; [reflexivity | split; [reflexivity | split; [reflexivity |]]].
    intros evs. rewrite stuck_forever by reflexivity. reflexivity.
Qed.

(** ** The debounce timer *)

Lemma tick_or_not (e : event) : e = Tick \/ e <> Tick.
Proof. destruct e; (by left) || (by right). Qed.

Section Timing.

Variable stored : jsval.

Lemma run_app evs1 evs2 s :
  run stored (evs1 ++ evs2) s = run stored evs2 (run stored evs1 s).
Proof. unfold run. apply foldl_app. Qed.

Lemma timing_executeInstalls root s :
  timer (executeInstalls stored root s) = timer s
  /\ clock (executeInstalls stored root s) = clock s
  /\ fired (executeInstalls stored root s) = fired s.
Proof. rewrite executeInstalls_unfold. destruct (installs s); cbn; tauto. Qed.

Lemma timing_quiet_step s e :
  quiet e = true -> e <> Tick ->
  timer (step stored s e) = timer s /\ clock (step stored s e) = clock s
  /\ fired (step stored s e) = fired s.
Proof.
  intros Hq Hne. destruct e as [root name| |k|k r]; [discriminate | congruence | |];
    unfold step.
  - unfold lock_granted. destruct (lock_held s); [tauto |].
    destruct (awaiting_lock s !! k); cbn; tauto.
  - unfold execa_settled. destruct (awaiting_execa s !! k) as [f|]; [| tauto].
    destruct r as [|m]; [| cbn; tauto].
    destruct (Nat.ltb _ _); [| cbn; tauto].
    destruct (timing_executeInstalls (cwd f)
                (mkState (installs s) (timer s) (clock s) (next_promise s) false
                   (awaiting_lock s) (delete k (awaiting_execa s))
                   (settle_calls s ++ (outsideResolve <$> packagesToInstall f))
                   (invocations s) (fired s) (thrown s))) as (-> & -> & ->).
    cbn. tauto.
Qed.

Lemma timing_tick s :
  clock (tick stored s) = S (clock s)
  /\ match timer s with
     | Some (deadline, root) =>
       if Nat.leb deadline (S (clock s))
       then timer (tick stored s) = None
            /\ fired (tick stored s) = fired s ++ [S (clock s)]
       else timer (tick stored s) = timer s /\ fired (tick stored s) = fired s
     | None => timer (tick stored s) = None /\ fired (tick stored s) = fired s
     end.
Proof.
  unfold tick, debounce_expire. destruct (timer s) as [[deadline root]|].
  - destruct (Nat.leb deadline (S (clock s))).
    + match goal with
      | |- context [executeInstalls stored root ?s'] =>
        destruct (timing_executeInstalls root s') as (-> & -> & ->)
      end.
      cbn. tauto.
    + cbn. tauto.
  - cbn. tauto.
Qed.




End Timing.



(** * Further properties of the scheduler *)

Section Exclusion.

Variable stored : jsval.

Lemma awaiting_execa_executeInstalls root s :
  awaiting_execa (executeInstalls stored root s) = awaiting_execa s
  /\ lock_held (executeInstalls stored root s) = lock_held s
  /\ invocations (executeInstalls stored root s) = invocations s.
Proof. rewrite executeInstalls_unfold. destruct (installs s); cbn; tauto. Qed.

Lemma exclusive_step s e : exclusive s -> exclusive (step stored s e).
Proof.
  intros Hex. pose proof Hex as [Hlen Hlock].
  destruct e as [root name| |k|k r]; unfold step.
  - split; cbn; assumption.
  - unfold tick. destruct (debounce_expire _ _) as [timer' [root|]].
    + match goal with
      | |- exclusive (executeInstalls stored root ?s') =>
        destruct (awaiting_execa_executeInstalls root s') as (Ha & Hl & _)
      end.
      unfold exclusive. rewrite Ha, Hl. cbn. tauto.
    + split; cbn; assumption.
  - unfold lock_granted. destruct (lock_held s) eqn:Hheld; [exact Hex |].
    destruct (awaiting_lock s !! k) as [f|]; [| exact Hex].
    destruct (awaiting_execa s) as [|g gs] eqn:E.
    + split; cbn; [lia | reflexivity].
    + specialize (Hlock ltac:(discriminate)). congruence.
  - unfold execa_settled. destruct (awaiting_execa s !! k) as [f|] eqn:Hk;
      [| exact Hex].
    assert (Hnil : delete k (awaiting_execa s) = []).
    { apply length_zero_iff_nil.
      pose proof (lookup_lt_Some _ _ _ Hk) as Hlt.
      rewrite length_delete by eauto. lia. }
    destruct r as [|m].
    + destruct (Nat.ltb _ _).
      * match goal with
        | |- exclusive (executeInstalls stored ?root ?s') =>
          destruct (awaiting_execa_executeInstalls root s') as (Ha & Hl & _)
        end.
        unfold exclusive. rewrite Ha, Hl. cbn. rewrite Hnil. cbn.
        split; [lia | congruence].
      * split; cbn; rewrite Hnil; cbn; [lia | congruence].
    + split; cbn; rewrite Hnil; cbn; [lia | congruence].
Qed.

Lemma exclusive_reachable s : reachable stored s -> exclusive s.
Proof.
  intros [evs ->]. assert (H : exclusive init) by (split; cbn; [lia | congruence]).
  revert H. generalize init. induction evs as [|e evs IH]; intros s H; [exact H |].
  apply (IH (step stored s e)), exclusive_step, H.
Qed.

Lemma stuck_invocations_step s e :
  lock_held s = true -> awaiting_execa s = [] ->
  invocations (step stored s e) = invocations s.
Proof.
  intros Hl Ha. destruct e as [root name| |k|k r]; unfold step.
  - reflexivity.
  - unfold tick. destruct (debounce_expire _ _) as [timer' [root|]].
    + rewrite executeInstalls_unfold. destruct (installs s); reflexivity.
    + reflexivity.
  - unfold lock_granted. by rewrite Hl.
  - unfold execa_settled. by rewrite Ha.
Qed.

Lemma stuck_run evs s :
  lock_held s = true -> awaiting_execa s = [] ->
  lock_held (run stored evs s) = true
  /\ awaiting_execa (run stored evs s) = []
  /\ settle_calls (run stored evs s) = settle_calls s
  /\ invocations (run stored evs s) = invocations s.
Proof.
  revert s. induction evs as [|e evs IH]; intros s Hl Ha; [tauto |].
  destruct (stuck_step stored s e Hl Ha) as (Hl' & Ha' & Hs).
  pose proof (stuck_invocations_step s e Hl Ha) as Hi.
  change (run stored (e :: evs) s) with (run stored evs (step stored s e)).
  destruct (IH _ Hl' Ha') as (? & ? & -> & ->). tauto.
Qed.

End Exclusion.

(** X1: in every state the scheduler can reach, no promise has been passed
    to a settling call twice, and a promise that has been settled was made
    by an earlier call of [createInstall] and is neither queued nor a member
    of a suspended activation any more. *)
Theorem X1_settled_once_and_gone stored s :
  reachable stored s ->
  NoDup (settle_calls s).*1
  /\ forall p, p ∈ (settle_calls s).*1 ->
       p < next_promise s
       /\ (p ∉ (promise <$> installs s))
       /\ (p ∉ flush_promises (awaiting_lock s))
       /\ (p ∉ flush_promises (awaiting_execa s)).
Proof.
  intros Hr. destruct (wf_reachable stored s Hr) as [Hnd Hlt].
  unfold tracked in *.
  apply NoDup_app in Hnd as (_ & H1 & Hnd).
  apply NoDup_app in Hnd as (_ & H2 & Hnd).
  apply NoDup_app in Hnd as (_ & H3 & Hnd).
  split; [exact Hnd |]. intros p Hp. rewrite Forall_forall in Hlt.
  split; [apply Hlt; rewrite !elem_of_app; tauto |].
  split; [| split]; intros Hin.
  - apply (H1 p Hin). rewrite !elem_of_app. tauto.
  - apply (H2 p Hin). rewrite !elem_of_app. tauto.
  - exact (H3 p Hin Hp).
Qed.

Lemma X1_settled_once_and_gone_witness :
  let s := run JUndefined
             (one_request_running ++ [ExecaSettled 0 ExecaOk]) init in
  reachable JUndefined s /\ NoDup (settle_calls s).*1.
Proof.
  intros s.
  assert (Hr : reachable JUndefined s)
    by (exists (one_request_running ++ [ExecaSettled 0 ExecaOk]); reflexivity).
  split; [exact Hr |].
  exact (proj1 (X1_settled_once_and_gone JUndefined s Hr)).
Defined.

(** X2: in every state the scheduler can reach, at most one activation is
    inside its installer call, and while one is, the lock is held: two
    installer calls never run at the same time. *)
Theorem X2_one_installer_at_a_time stored s :
  reachable stored s ->
  length (awaiting_execa s) <= 1
  /\ (awaiting_execa s <> [] -> lock_held s = true).
Proof. apply exclusive_reachable. Qed.

Lemma X2_one_installer_at_a_time_witness :
  let s := run JUndefined request_during_install init in
  reachable JUndefined s /\ length (awaiting_execa s) <= 1.
Proof.
  intros s.
  assert (Hr : reachable JUndefined s)
    by (exists request_during_install; reflexivity).
  split; [exact Hr |].
  exact (proj1 (X2_one_installer_at_a_time JUndefined s Hr)).
Defined.

(** X3: once an installer call has failed, the lock is never free again:
    whatever happens afterwards, the installer is not called again and no
    further promise is settled. *)
Theorem X3_nothing_after_a_failure stored s k f shortMessage evs :
  reachable stored s ->
  awaiting_execa s !! k = Some f ->
  let failed := execa_settled stored k (ExecaFailed shortMessage) s in
  lock_held (run stored evs failed) = true
  /\ invocations (run stored evs failed) = invocations s
  /\ settle_calls (run stored evs failed) = settle_calls failed.
Proof.
  intros Hr Hk failed.
  destruct (exclusive_reachable stored s Hr) as [Hlen Hlock].
  assert (Hl : lock_held failed = true).
  { subst failed. unfold execa_settled. rewrite Hk. cbn. apply Hlock.
    intros E. rewrite E in Hk. discriminate. }
  assert (Ha : awaiting_execa failed = []).
  { subst failed. unfold execa_settled. rewrite Hk. cbn.
    apply length_zero_iff_nil. pose proof (lookup_lt_Some _ _ _ Hk).
    rewrite length_delete by eauto. lia. }
  destruct (stuck_run stored evs failed Hl Ha) as (H1 & _ & H3 & H4).
  split; [exact H1 | split; [| exact H3]].
  rewrite H4. subst failed. unfold execa_settled. rewrite Hk. reflexivity.
Qed.

Lemma X3_nothing_after_a_failure_witness :
  let s := run JUndefined one_request_running init in
  let f := mkFlush [mkInstall 0 (ResString "pkg-a")]
                   (Some ["add"; "-W"; "undefined@undefined"]) "/site" in
  let later := [CreateInstall "/site" (ResString "pkg-b")] ++ replicate 25 Tick
               ++ [LockGranted 0] in
  reachable JUndefined s /\ awaiting_execa s !! 0 = Some f /\
  invocations
    (run JUndefined later
         (execa_settled JUndefined 0 (ExecaFailed (JStr "exit 1")) s))
  = invocations s.
Proof.
  intros s f later.
  assert (Hr : reachable JUndefined s) by (exists one_request_running; reflexivity).
  assert (Hk : awaiting_execa s !! 0 = Some f) by reflexivity.
  split; [exact Hr | split; [exact Hk |]].
  exact (proj1 (proj2 (X3_nothing_after_a_failure JUndefined s 0 f
                         (JStr "exit 1") later Hr Hk))).
Defined.

(** ** What a flush pass takes and what it leaves *)

Lemma filter_sublist {A : Type} (P : A -> bool) (l : list A) :
  List.filter P l `sublist_of` l.
Proof.
  induction l as [|x l IH]; [constructor |].
  cbn. destruct (P x); by constructor.
Qed.

Lemma elem_of_bool_filter {A : Type} (P : A -> bool) (l : list A) (x : A) :
  x ∈ List.filter P l <-> x ∈ l /\ P x = true.
Proof. rewrite !list_elem_of_In. apply filter_In. Qed.

Lemma elem_of_serviced_group first rest p :
  p ∈ serviced_group (first :: rest)
  <-> p ∈ first :: rest /\ class_key p = class_key first.
Proof.
  unfold serviced_group, with_key. rewrite elem_of_bool_filter.
  unfold class_key. by rewrite String.eqb_eq.
Qed.

Lemma elem_of_kept group installs i :
  i ∈ kept group installs
  <-> i ∈ installs
      /\ forall p, p ∈ group -> res_name (resource i) <> res_name (resource p).
Proof.
  unfold kept. rewrite elem_of_bool_filter, negb_true_iff.
  split; intros [Hin H]; (split; [exact Hin |]).
  - intros p Hp Heq.
    assert (Hex : existsb (fun p => strict_eq (res_name (resource i))
                                              (res_name (resource p))) group = true).
    { apply existsb_exists. exists p. split; [by apply list_elem_of_In |].
      by apply strict_eq_eq. }
    congruence.
  - apply not_true_iff_false. intros Hex.
    apply existsb_exists in Hex as (p & Hp & Heq).
    apply (H p); [by apply list_elem_of_In | by apply strict_eq_eq].
Qed.

Lemma first_in_group first rest : first ∈ serviced_group (first :: rest).
Proof. apply elem_of_serviced_group. split; [by left | reflexivity]. Qed.

Lemma kept_drops_first first rest :
  kept (serviced_group (first :: rest)) (first :: rest)
  = kept (serviced_group (first :: rest)) rest.
Proof.
  unfold kept at 1. cbn [List.filter].
  destruct (negb _) eqn:E; [| reflexivity]. exfalso.
  assert (Hin : first ∈ kept (serviced_group (first :: rest)) (first :: rest)).
  { unfold kept. apply elem_of_bool_filter. split; [by left | exact E]. }
  apply elem_of_kept in Hin as [_ Hne].
  exact (Hne first (first_in_group first rest) eq_refl).
Qed.

(** X4: a flush pass on a non-empty queue always takes the first queued
    request into its group and leaves a strictly shorter queue; the group
    and the remaining queue both keep the order of the queue. *)
Theorem X4_flush_takes_first_and_shrinks stored root first rest :
  exists installs' f,
    executeInstalls_prefix stored root (first :: rest) = Normal (installs', f)
    /\ first ∈ packagesToInstall f
    /\ packagesToInstall f `sublist_of` first :: rest
    /\ installs' `sublist_of` rest
    /\ length installs' < length (first :: rest).
Proof.
  eexists _, _. rewrite executeInstalls_prefix_cons. cbn zeta.
  split; [reflexivity |]. cbn [packagesToInstall].
  split; [apply first_in_group |].
  split; [unfold serviced_group, with_key; apply filter_sublist |].
  rewrite kept_drops_first.
  assert (Hsub : kept (serviced_group (first :: rest)) rest `sublist_of` rest)
    by apply filter_sublist.
  split; [exact Hsub |].
  apply sublist_length in Hsub. cbn [length]. lia.
Qed.

(** X5: which entries a flush pass takes and which it leaves.  Its group
    is exactly the queued entries whose classification has the same string
    form as that of the first entry; the queue it leaves is exactly the
    entries whose name differs from the name of every member of the group.
    So no entry that is left has the classification of the group. *)
Theorem X5_group_and_remaining_queue stored root first rest :
  exists installs' f,
    executeInstalls_prefix stored root (first :: rest) = Normal (installs', f)
    /\ (forall p, p ∈ packagesToInstall f
                  <-> p ∈ first :: rest /\ class_key p = class_key first)
    /\ (forall i, i ∈ installs'
                  <-> i ∈ first :: rest
                      /\ forall p, p ∈ packagesToInstall f ->
                                   res_name (resource i) <> res_name (resource p))
    /\ (forall i, i ∈ installs' -> class_key i <> class_key first).
Proof.
  eexists _, _. rewrite executeInstalls_prefix_cons. cbn zeta.
  split; [reflexivity |]. cbn [packagesToInstall].
  split; [apply elem_of_serviced_group |].
  split; [apply elem_of_kept |].
  intros i Hi Hkey. apply elem_of_kept in Hi as [Hin Hne].
  apply (Hne i); [| reflexivity].
  apply elem_of_serviced_group. by split.
Qed.

Lemma bool_filter_all {A : Type} (P : A -> bool) (l : list A) :
  forallb P l = true -> List.filter P l = l.
Proof.
  induction l as [|x l IH]; [reflexivity |]. cbn.
  intros H. apply andb_true_iff in H as [-> H]. by rewrite IH.
Qed.

Lemma bool_filter_none {A : Type} (P : A -> bool) (l : list A) :
  forallb (fun x => negb (P x)) l = true -> List.filter P l = [].
Proof.
  induction l as [|x l IH]; [reflexivity |]. cbn.
  intros H. apply andb_true_iff in H as [Hx H].
  apply negb_true_iff in Hx. rewrite Hx. by apply IH.
Qed.

Lemma string_named_fields i :
  string_named i = true ->
  res_name (resource i) = JUndefined
  /\ res_version (resource i) = JUndefined
  /\ res_dependencyType (resource i) = JUndefined.
Proof. unfold string_named. destruct (resource i); [tauto | discriminate]. Qed.

Lemma string_queue_one_group installs :
  forallb string_named installs = true ->
  serviced_group installs = installs
  /\ kept installs installs = []
  /\ entry <$> installs = replicate (length installs) "undefined@undefined".
Proof.
  intros Hall. rewrite forallb_forall in Hall.
  split; [| split].
  - destruct installs as [|first rest]; [reflexivity |].
    unfold serviced_group, with_key. apply bool_filter_all.
    apply forallb_forall. intros x Hx.
    destruct (string_named_fields x (Hall x Hx)) as (_ & _ & ->).
    destruct (string_named_fields first (Hall first ltac:(by left)))
      as (_ & _ & ->).
    reflexivity.
  - unfold kept. apply bool_filter_none. apply forallb_forall. intros x Hx.
    rewrite negb_involutive. apply existsb_exists. exists x.
    split; [exact Hx | apply strict_eq_refl].
  - induction installs as [|x l IH]; [reflexivity |].
    cbn. rewrite IH by (intros y Hy; apply Hall; by right). f_equal.
    unfold entry.
    destruct (string_named_fields x (Hall x ltac:(by left))) as (-> & -> & _).
    reflexivity.
Qed.

(** X6: when every queued resource is a string, as the signature of
    [createInstall] declares, a flush pass takes the whole queue as one
    group, leaves the queue empty, and the arguments it builds for the
    installer hold the text [undefined@undefined] once per request: the
    requested names do not reach the command. *)
Theorem X6_string_names_one_group stored root first rest :
  forallb string_named (first :: rest) = true ->
  executeInstalls_prefix stored root (first :: rest)
  = Normal ([],
            mkFlush (first :: rest)
                    (generateClientCommands (PACKAGE_MANAGER stored) JUndefined
                       (replicate (length (first :: rest)) "undefined@undefined"))
                    root).
Proof.
  intros Hall. rewrite executeInstalls_prefix_cons. cbn zeta.
  destruct (string_queue_one_group (first :: rest) Hall) as (-> & -> & Hentries).
  rewrite getPackageNames_entry, Hentries.
  destruct (string_named_fields first) as (_ & _ & ->); [| reflexivity].
  cbn in Hall. by apply andb_true_iff in Hall as [? _].
Qed.

Lemma X6_string_names_one_group_witness :
  forallb string_named
    [mkInstall 0 (ResString "gatsby-plugin-image");
     mkInstall 1 (ResString "gatsby-plugin-sharp")] = true
  /\ executeInstalls_prefix (JStr "npm") "/site"
       [mkInstall 0 (ResString "gatsby-plugin-image");
        mkInstall 1 (ResString "gatsby-plugin-sharp")]
     = Normal ([],
               mkFlush [mkInstall 0 (ResString "gatsby-plugin-image");
                        mkInstall 1 (ResString "gatsby-plugin-sharp")]
                       (Some ["install"; "undefined@undefined";
                              "undefined@undefined"])
                       "/site").
Proof.
  assert (H : forallb string_named
                [mkInstall 0 (ResString "gatsby-plugin-image");
                 mkInstall 1 (ResString "gatsby-plugin-sharp")] = true)
    by reflexivity.
  split; [exact H |].
  exact (X6_string_names_one_group (JStr "npm") "/site" _ _ H).
Defined.

(** ** The dev flag *)

Lemma mentions_append c a b : mentions c (a +:+ b) = mentions c a || mentions c b.
Proof.
  induction a as [|x a IH]; [reflexivity |].
  change (String x a +:+ b) with (String x (a +:+ b)). cbn [mentions].
  by rewrite IH, orb_assoc.
Qed.

Lemma package_name_mentions_at (packages : list resource_value) (x : string) :
  x ∈ getPackageNames packages -> mentions "@"%char x = true.
Proof.
  unfold getPackageNames. intros Hx.
  apply list_elem_of_fmap in Hx as (r & -> & _).
  rewrite !mentions_append. cbn. by rewrite orb_true_r.
Qed.

Lemma flag_not_a_package_name (packages : list resource_value) (flag : string) :
  mentions "@"%char flag = false -> flag ∉ getPackageNames packages.
Proof.
  intros Hflag Hin. apply package_name_mentions_at in Hin. congruence.
Qed.

(** X7: the argument list tells the classification.  For yarn the list
    contains [--dev] exactly when the classification is [development], and
    for npm it contains [--save-dev] exactly then; no package name can be
    taken for a flag, because every entry [name@version] has an [@]. *)
Theorem X7_dev_flag_iff_development depType packages :
  (exists args,
     generateClientCommands "yarn" depType (getPackageNames packages) = Some args
     /\ ("--dev" ∈ args <-> depType = JStr "development"))
  /\
  (exists args,
     generateClientCommands "npm" depType (getPackageNames packages) = Some args
     /\ ("--save-dev" ∈ args <-> depType = JStr "development")).
Proof.
  pose proof (flag_not_a_package_name packages "--dev" eq_refl) as Hdev.
  pose proof (flag_not_a_package_name packages "--save-dev" eq_refl) as Hsave.
  unfold generateClientCommands. cbn [String.eqb Ascii.eqb Bool.eqb].
  split; eexists; (split; [reflexivity |]);
    destruct (strict_eq depType (JStr "development")) eqn:E.
  - apply strict_eq_eq in E. split; [done |]. intros _.
    cbn. do 2 right. by left.
  - split.
    + cbn. intros H. repeat (apply elem_of_cons in H as [H | H]; [discriminate |]).
      contradiction.
    + intros ->. cbn in E. discriminate.
  - apply strict_eq_eq in E. split; [done |]. intros _.
    cbn. right. by left.
  - split.
    + cbn. intros H. repeat (apply elem_of_cons in H as [H | H]; [discriminate |]).
      contradiction.
    + intros ->. cbn in E. discriminate.
Qed.

(** ** When a flush pass throws *)

(** X8: the only step that can throw is the expiry of the timer on an empty
    queue.  The immediate call after a successful installer call never
    throws, nor do calls of [createInstall] or the resumptions of suspended
    activations. *)
Theorem X8_throws_only_on_expiry_with_empty_queue stored s e :
  thrown (step stored s e) <> thrown s
  <-> e = Tick /\ installs s = []
      /\ exists deadline root,
           timer s = Some (deadline, root) /\ deadline <= S (clock s).
Proof.
  destruct e as [root name| |k|k r]; unfold step.
  - cbn. split; [intros H; by destruct H | intros [? _]; discriminate].
  - unfold tick, debounce_expire.
    destruct (timer s) as [[deadline root]|] eqn:Ht.
    + destruct (Nat.leb_spec deadline (S (clock s))) as [Hd | Hd].
      * rewrite executeInstalls_unfold. cbn [installs].
        destruct (installs s) as [|first rest] eqn:E; cbn.
        -- split; [| lia]. intros _. split; [reflexivity |].
           split; [reflexivity |]. eauto.
        -- split; [intros H; by destruct H | intros (_ & ? & _); discriminate].
      * cbn. split; [intros H; by destruct H |].
        intros (_ & _ & d & r & Heq & Hle). injection Heq as <- <-. lia.
    + cbn. split; [intros H; by destruct H |]. intros (_ & _ & d & r & Heq & _). discriminate.
  - split; [| intros [? _]; discriminate].
    unfold lock_granted. destruct (lock_held s); [intros H; by destruct H |].
    destruct (awaiting_lock s !! k); cbn; intros H; by destruct H.
  - split; [| intros [? _]; discriminate].
    unfold execa_settled. destruct (awaiting_execa s !! k) as [f|]; [| intros H; by destruct H].
    destruct r as [|m]; [| cbn; intros H; by destruct H].
    cbn [installs].
    destruct (Nat.ltb_spec 0 (length (installs s))) as [Hlen | Hlen];
      [| cbn; intros H; by destruct H].
    rewrite executeInstalls_unfold. cbn [installs].
    destruct (installs s); [cbn in Hlen; lia | cbn; intros H; by destruct H].
Qed.

(** ** The timer in reachable states *)

Section TimerInvariant.

Variable stored : jsval.

Lemma timer_ok_step s e : timer_ok s -> timer_ok (step stored s e).
Proof.
  intros (Hdl & Hcount & Hfired).
  pose proof (next_promise_step stored s e) as Hnext.
  destruct (tick_or_not e) as [-> | Hne].
  - change (step stored s Tick) with (tick stored s) in *.
    destruct (timing_tick stored s) as [Hc Hrest].
    destruct (timer s) as [[deadline root]|] eqn:Ht.
    + destruct (Hdl deadline root eq_refl) as (Hlo & Hhi & Hmin).
      destruct (Nat.leb_spec deadline (S (clock s))) as [Hd | Hd];
        destruct Hrest as [Ht' Hf'].
      * unfold timer_ok. rewrite Ht', Hf', Hc, length_app. cbn.
        split; [discriminate |]. split; [lia |].
        apply Forall_app. split.
        -- eapply Forall_impl; [exact Hfired |]. cbn. lia.
        -- constructor; [cbn; lia | constructor].
      * unfold timer_ok. rewrite Ht', Hf', Hc. cbn.
        split; [| split; [lia |]].
        -- intros d r Heq. injection Heq as <- <-. lia.
        -- eapply Forall_impl; [exact Hfired |]. cbn. lia.
    + destruct Hrest as [Ht' Hf']. unfold timer_ok. rewrite Ht', Hf', Hc.
      split; [discriminate |]. split; [cbn in *; lia |].
      eapply Forall_impl; [exact Hfired |]. cbn. lia.
  - destruct e as [root name| |k|k r]; [| congruence | |].
    + unfold step, createInstall, debounce_call, timer_ok in *. cbn in *.
      split; [| split; [| exact Hfired]].
      * intros d r Heq. injection Heq as <- <-. unfold debounce_wait. lia.
      * destruct (timer s); lia.
    + destruct (timing_quiet_step stored s (LockGranted k) eq_refl Hne)
        as (Ht' & Hc' & Hf').
      unfold timer_ok. rewrite Ht', Hc', Hf'.
      split; [exact Hdl | split; [lia | exact Hfired]].
    + destruct (timing_quiet_step stored s (ExecaSettled k r) eq_refl Hne)
        as (Ht' & Hc' & Hf').
      unfold timer_ok. rewrite Ht', Hc', Hf'.
      split; [exact Hdl | split; [lia | exact Hfired]].
Qed.

Lemma timer_ok_reachable s : reachable stored s -> timer_ok s.
Proof.
  intros [evs ->].
  assert (H : timer_ok init).
  { split; [discriminate | split; [cbn; lia | constructor]]. }
  revert H. generalize init. induction evs as [|e evs IH]; intros s H; [exact H |].
  apply (IH (step stored s e)), timer_ok_step, H.
Qed.

End TimerInvariant.

(** X9: in every state the scheduler can reach, a pending timer is due in
    the future and at most 25 time units ahead; the timer has expired at
    most once per call of [createInstall] (a pending timer counted as one
    expiry to come); and no expiry happened earlier than 25 time units
    after the start. *)
Theorem X9_timer_bounds stored s :
  reachable stored s ->
  (forall deadline root,
     timer s = Some (deadline, root) ->
     clock s < deadline /\ deadline <= clock s + 25)
  /\ length (fired s) + match timer s with Some _ => 1 | None => 0 end
     <= next_promise s
  /\ Forall (fun t => 25 <= t /\ t <= clock s) (fired s).
Proof.
  intros Hr. destruct (timer_ok_reachable stored s Hr) as (Hdl & Hcount & Hfired).
  split; [| split; assumption].
  intros deadline root Ht. destruct (Hdl deadline root Ht) as (? & ? & _).
  by split.
Qed.

Lemma X9_timer_bounds_witness :
  let s := run JUndefined request_during_install init in
  reachable JUndefined s /\ length (fired s) + 1 <= next_promise s.
Proof.
  intros s.
  assert (Hr : reachable JUndefined s)
    by (exists request_during_install; reflexivity).
  split; [exact Hr |].
  exact (proj1 (proj2 (X9_timer_bounds JUndefined s Hr))).
Defined.

(** ** What the installer is called with *)

Lemma requested_app evs1 evs2 :
  requested (evs1 ++ evs2) = requested evs1 ++ requested evs2.
Proof.
  induction evs1 as [|e evs1 IH]; [reflexivity |].
  destruct e; cbn; by rewrite IH.
Qed.

Lemma request_of_more reqs more p :
  request_of reqs p -> request_of (reqs ++ more) p.
Proof. unfold request_of. apply lookup_app_l_Some. Qed.

Lemma command_for_group_more stored reqs more first others args :
  command_for_group stored reqs first others args ->
  command_for_group stored (reqs ++ more) first others args.
Proof.
  intros (Hreq & Hrest). split; [| exact Hrest].
  eapply Forall_impl; [exact Hreq |]. intros p. apply request_of_more.
Qed.

Lemma sublist_promises_NoDup (l k : list install) :
  l `sublist_of` k -> NoDup (promise <$> k) -> NoDup (promise <$> l).
Proof.
  intros Hsub. apply NoDup_submseteq_inv.
  apply sublist_submseteq. by apply fmap_sublist.
Qed.

Section Commands.

Variable stored : jsval.

Lemma serviced_group_cons first rest :
  serviced_group (first :: rest)
  = first :: with_key (fun c => res_dependencyType (resource c))
                      (class_key first) rest.
Proof.
  unfold serviced_group, with_key, class_key. cbn [List.filter].
  by rewrite String.eqb_refl.
Qed.

Lemma group_command reqs first rest :
  Forall (request_of reqs) (first :: rest) ->
  NoDup (promise <$> first :: rest) ->
  exists others,
    serviced_group (first :: rest) = first :: others
    /\ command_for_group stored reqs first others
         (generateClientCommands (PACKAGE_MANAGER stored)
            (res_dependencyType (resource first))
            (getPackageNames (resource <$> serviced_group (first :: rest)))).
Proof.
  intros Hreq Hnd. eexists. split; [apply serviced_group_cons |].
  rewrite getPackageNames_entry, serviced_group_cons.
  assert (Hsub : first :: with_key (fun c => res_dependencyType (resource c))
                                   (class_key first) rest
                 `sublist_of` first :: rest).
  { constructor. unfold with_key. apply filter_sublist. }
  split; [| split; [| split; [| reflexivity]]].
  - rewrite Forall_forall in Hreq |- *. intros p Hp. apply Hreq.
    eapply elem_of_sublist; eassumption.
  - by apply (sublist_promises_NoDup _ _ Hsub).
  - apply Forall_forall. intros p Hp. unfold with_key in Hp.
    apply elem_of_bool_filter in Hp as [_ Hp]. by apply String.eqb_eq in Hp.
Qed.

Lemma commands_ok_same reqs s s' :
  next_promise s' = next_promise s -> installs s' = installs s ->
  awaiting_lock s' = awaiting_lock s -> invocations s' = invocations s ->
  commands_ok stored reqs s -> commands_ok stored reqs s'.
Proof. unfold commands_ok. by intros -> -> -> ->. Qed.

Lemma commands_ok_executeInstalls reqs root s :
  NoDup (promise <$> installs s) ->
  commands_ok stored reqs s ->
  commands_ok stored reqs (executeInstalls stored root s).
Proof.
  intros Hnd Hok. pose proof Hok as (Hnext & Hq & Hal & Hinv).
  rewrite executeInstalls_unfold.
  destruct (installs s) as [|first rest] eqn:E.
  { by apply (commands_ok_same reqs s). }
  destruct (group_command reqs first rest Hq Hnd) as (others & Hg & Hcmd).
  unfold commands_ok.
  cbn zeta. cbn [next_promise installs awaiting_lock invocations].
  split; [exact Hnext |]. split; [| split; [| exact Hinv]].
  - rewrite Forall_forall in Hq |- *. intros p Hp.
    apply elem_of_kept in Hp as [Hp _]. by apply Hq.
  - apply Forall_app. split; [exact Hal |].
    constructor; [| constructor]. cbn [packagesToInstall commands].
    exists first, others. split; [exact Hg | exact Hcmd].
Qed.

Lemma commands_ok_step reqs s e :
  wf s -> commands_ok stored reqs s ->
  commands_ok stored (reqs ++ requested [e]) (step stored s e).
Proof.
  intros [Hwf _] Hok. pose proof Hok as (Hnext & Hq & Hal & Hinv).
  assert (Hnd : NoDup (promise <$> installs s)).
  { unfold tracked in Hwf. by apply NoDup_app in Hwf as [? _]. }
  destruct e as [root name| |k|k r]; unfold step;
    cbn [requested]; rewrite ?app_nil_r.
  - split; [| split; [| split]]; cbn.
    + rewrite length_app. cbn. lia.
    + apply Forall_app. split.
      * eapply Forall_impl; [exact Hq |]. intros p. apply request_of_more.
      * constructor; [| constructor]. unfold request_of. cbn.
        rewrite Hnext. by apply list_lookup_middle.
    + eapply Forall_impl; [exact Hal |]. intros f (first & others & Hf & Hc).
      exists first, others. split; [exact Hf |]. by apply command_for_group_more.
    + eapply Forall_impl; [exact Hinv |].
      intros call (Hp & first & others & Hc). split; [exact Hp |].
      exists first, others. by apply command_for_group_more.
  - unfold tick. destruct (debounce_expire _ _) as [timer' [root|]].
    + apply commands_ok_executeInstalls; [exact Hnd |].
      by apply (commands_ok_same reqs s).
    + by apply (commands_ok_same reqs s).
  - unfold lock_granted. destruct (lock_held s); [exact Hok |].
    destruct (awaiting_lock s !! k) as [f|] eqn:Hk; [| exact Hok].
    split; [exact Hnext |]. split; [exact Hq |]. split; cbn.
    + rewrite (delete_Permutation _ _ _ Hk) in Hal.
      by apply Forall_cons in Hal as [_ ?].
    + apply Forall_app. split; [exact Hinv |].
      constructor; [| constructor]. cbn. split; [reflexivity |].
      rewrite Forall_forall in Hal.
      destruct (Hal f) as (first & others & _ & Hc);
        [by eapply list_elem_of_lookup_2 | eauto].
  - unfold execa_settled. destruct (awaiting_execa s !! k) as [f|]; [| exact Hok].
    destruct r as [|m]; [| by apply (commands_ok_same reqs s)].
    destruct (Nat.ltb _ _); [| by apply (commands_ok_same reqs s)].
    apply commands_ok_executeInstalls; [exact Hnd |].
    by apply (commands_ok_same reqs s).
Qed.

Lemma commands_ok_run evs :
  commands_ok stored (requested evs) (run stored evs init).
Proof.
  induction evs as [|e evs IH] using rev_ind.
  - split; [reflexivity |]. repeat split; constructor.
  - rewrite requested_app, run_app.
    apply (commands_ok_step (requested evs) (run stored evs init) e);
      [apply wf_run, wf_init | exact IH].
Qed.

Lemma PACKAGE_MANAGER_not_empty : PACKAGE_MANAGER stored <> EmptyString.
Proof. destruct stored as [|[|c rest]]; discriminate. Qed.

End Commands.

(** X10: every installer call made in a run of the scheduler names the
    configured package manager, which is never the empty string, and is
    made for a non-empty group of requests of that run: the members are
    distinct queue entries made by calls of [createInstall] in the run,
    each with the resource its call passed, all of the classification of
    the first of them; and the argument list is the command generated for
    that classification and the entries of those members, in that order. *)
Theorem X10_installer_calls_well_formed stored evs program args dir :
  (program, args, dir) ∈ invocations (run stored evs init) ->
  program = PACKAGE_MANAGER stored
  /\ program <> EmptyString
  /\ exists first others,
       (forall p, p ∈ first :: others ->
                  requested evs !! promise p = Some (resource p))
       /\ NoDup (promise <$> first :: others)
       /\ Forall (fun p => class_key p = class_key first) others
       /\ args = generateClientCommands (PACKAGE_MANAGER stored)
                   (res_dependencyType (resource first))
                   (entry <$> first :: others).
Proof.
  intros Hin. destruct (commands_ok_run stored evs) as (_ & _ & _ & Hinv).
  rewrite Forall_forall in Hinv.
  destruct (Hinv _ Hin) as (Hp & first & others & Hreq & Hnd & Hclass & Hargs).
  cbn in Hp, Hargs.
  split; [exact Hp | split].
  - rewrite Hp. apply PACKAGE_MANAGER_not_empty.
  - exists first, others. split; [| by repeat split].
    intros p Hin'. rewrite Forall_forall in Hreq. exact (Hreq p Hin').
Qed.

Lemma X10_installer_calls_well_formed_witness :
  let evs := [CreateInstall "/site" pkg_development;
              CreateInstall "/site" (ResObject (JStr "lodash") (JStr "4.17.21")
                                               (JStr "development"))]
             ++ replicate 25 Tick ++ [LockGranted 0] in
  ("npm", Some ["install"; "--save-dev"; "pkg@2.0.0"; "lodash@4.17.21"], "/site")
  ∈ invocations (run (JStr "npm") evs init)
  /\ "npm" = PACKAGE_MANAGER (JStr "npm").
Proof.
  intros evs.
  assert (Hin : ("npm", Some ["install"; "--save-dev"; "pkg@2.0.0";
                              "lodash@4.17.21"], "/site")
                ∈ invocations (run (JStr "npm") evs init))
    by (vm_compute; by left).
  split; [exact Hin |].
  exact (proj1 (X10_installer_calls_well_formed (JStr "npm") evs _ _ _ Hin)).
Defined.

(** ** Requests with string names are never lost *)

Section Conservation.

Variable stored : jsval.

Lemma strings_executeInstalls root s :
  forallb string_named (installs s) = true ->
  forallb string_named (installs (executeInstalls stored root s)) = true
  /\ tracked (executeInstalls stored root s) ≡ₚ tracked s
  /\ next_promise (executeInstalls stored root s) = next_promise s.
Proof.
  intros Hall. rewrite executeInstalls_unfold.
  destruct (installs s) as [|first rest] eqn:E.
  - unfold tracked. cbn. rewrite E. by split.
  - destruct (string_queue_one_group (first :: rest) Hall) as (Hg & Hk & _).
    cbn zeta. rewrite Hg, Hk. split; [reflexivity |]. split; [| reflexivity].
    unfold tracked. cbn [installs awaiting_lock awaiting_execa settle_calls].
    rewrite E, flush_promises_snoc. cbn [packagesToInstall].
    solve_Permutation.
Qed.

Lemma strings_step s e :
  string_event e = true ->
  forallb string_named (installs s) = true ->
  tracked s ≡ₚ seq 0 (next_promise s) ->
  forallb string_named (installs (step stored s e)) = true
  /\ tracked (step stored s e) ≡ₚ seq 0 (next_promise (step stored s e)).
Proof.
  intros He Hall Htr. destruct e as [root name| |k|k r]; unfold step.
  - destruct name as [n|]; [| discriminate]. split.
    + cbn. rewrite forallb_app, Hall. reflexivity.
    + rewrite tracked_createInstall, Htr. cbn [next_promise createInstall].
      rewrite seq_S. cbn. by rewrite Permutation_cons_append.
  - unfold tick. destruct (debounce_expire _ _) as [timer' [root|]].
    + match goal with
      | |- context [executeInstalls stored root ?s'] =>
        destruct (strings_executeInstalls root s' Hall) as (Ha & -> & ->)
      end.
      split; [exact Ha | exact Htr].
    + split; [exact Hall | exact Htr].
  - split.
    + unfold lock_granted. destruct (lock_held s); [exact Hall |].
      destruct (awaiting_lock s !! k); exact Hall.
    + rewrite tracked_lock_granted, Htr. f_equiv.
      unfold lock_granted. destruct (lock_held s); [reflexivity |].
      destruct (awaiting_lock s !! k); reflexivity.
  - unfold execa_settled.
    destruct (awaiting_execa s !! k) as [f|] eqn:Hk; [| by split].
    destruct r as [|m].
    + match goal with
      | |- context [executeInstalls stored _ ?s'] =>
        assert (Hs' : tracked s' ≡ₚ tracked s);
        [| destruct (strings_executeInstalls (cwd f) s' Hall) as (Ha & Ht & Hn)]
      end.
      { unfold tracked. cbn.
        rewrite fmap_app, fst_outsideResolve, (flush_promises_delete _ _ _ Hk).
        solve_Permutation. }
      destruct (Nat.ltb _ _).
      * split; [exact Ha |]. by rewrite Ht, Hn, Hs'.
      * split; [exact Hall |]. by rewrite Hs'.
    + split; [exact Hall |]. rewrite <- Htr. unfold tracked. cbn.
      rewrite fmap_app, fst_outsideReject, (flush_promises_delete _ _ _ Hk).
      solve_Permutation.
Qed.

Lemma strings_run evs s :
  forallb string_event evs = true ->
  forallb string_named (installs s) = true ->
  tracked s ≡ₚ seq 0 (next_promise s) ->
  tracked (run stored evs s) ≡ₚ seq 0 (next_promise (run stored evs s)).
Proof.
  revert s. induction evs as [|e evs IH]; intros s Hevs Hall Htr; [exact Htr |].
  cbn in Hevs. apply andb_true_iff in Hevs as [He Hevs].
  destruct (strings_step s e He Hall Htr) as [Hall' Htr'].
  exact (IH (step stored s e) Hevs Hall' Htr').
Qed.

End Conservation.

(** X11: when every call of [createInstall] passes a string, as its
    signature declares, the scheduler never loses a request: in every state
    it reaches, each promise made so far is queued, or a member of a
    suspended activation, or has been passed to a settling call, and is in
    exactly one of these places. *)
Theorem X11_string_requests_never_lost stored evs p :
  forallb string_event evs = true ->
  let s := run stored evs init in
  p < next_promise s ->
  p ∈ tracked s /\ NoDup (tracked s).
Proof.
  intros Hevs s Hp.
  assert (Htr : tracked s ≡ₚ seq 0 (next_promise s))
    by (apply strings_run; [exact Hevs | reflexivity | reflexivity]).
  split.
  - rewrite Htr. apply elem_of_seq. lia.
  - rewrite Htr. apply NoDup_seq.
Qed.

Lemma X11_string_requests_never_lost_witness :
  forallb string_event request_after_failure = true
  /\ 1 < next_promise (run JUndefined request_after_failure init)
  /\ 1 ∈ tracked (run JUndefined request_after_failure init).
Proof.
  assert (He : forallb string_event request_after_failure = true) by reflexivity.
  assert (Hp : 1 < next_promise (run JUndefined request_after_failure init))
    by (vm_compute; lia).
  split; [exact He | split; [exact Hp |]].
  exact (proj1 (X11_string_requests_never_lost JUndefined
                  request_after_failure 1 He Hp)).
Defined.

(** ** A burst of requests that succeeds *)

Section Success.

Variable stored : jsval.

Lemma run_calls more : forall root name q t c np lk al ae sc iv fi th,
  run stored (calls ((root, name) :: more))
      (mkState q t c np lk al ae sc iv fi th)
  = mkState (q ++ queue_of np (name :: more.*2))
            (Some (c + debounce_wait, final_root root more)) c
            (np + S (length more)) lk al ae sc iv fi th.
Proof.
  induction more as [|[r2 n2] more IH];
    intros root name q t c np lk al ae sc iv fi th.
  - cbn. unfold createInstall, debounce_call. cbn. f_equal; lia.
  - change (calls ((root, name) :: (r2, n2) :: more))
      with (CreateInstall root (ResString name) :: calls ((r2, n2) :: more)).
    change (run stored (CreateInstall root (ResString name)
                        :: calls ((r2, n2) :: more))
                (mkState q t c np lk al ae sc iv fi th))
      with (run stored (calls ((r2, n2) :: more))
                (mkState (q ++ [mkInstall np (ResString name)])
                         (debounce_call c root) c (S np) lk al ae sc iv fi th)).
    rewrite IH. cbn. rewrite <- app_assoc. f_equal; lia.
Qed.

Lemma run_waiting j : forall q d r c np lk al ae sc iv fi th,
  c + j < d ->
  run stored (replicate j Tick)
      (mkState q (Some (d, r)) c np lk al ae sc iv fi th)
  = mkState q (Some (d, r)) (c + j) np lk al ae sc iv fi th.
Proof.
  induction j as [|j IH]; intros q d r c np lk al ae sc iv fi th Hlt.
  - cbn. f_equal; lia.
  - cbn [replicate].
    change (run stored (Tick :: replicate j Tick)
                (mkState q (Some (d, r)) c np lk al ae sc iv fi th))
      with (run stored (replicate j Tick)
                (tick stored (mkState q (Some (d, r)) c np lk al ae sc iv fi th))).
    unfold tick, debounce_expire. cbn [timer clock].
    destruct (Nat.leb_spec d (S c)); [lia |].
    cbn. rewrite IH by lia. f_equal; lia.
Qed.

Lemma promise_queue_of names : forall base,
  outsideResolve <$> queue_of base names
  = (fun p => (p, Resolved)) <$> seq base (length names).
Proof.
  induction names as [|n names IH]; intros base; [reflexivity |].
  cbn. by rewrite IH.
Qed.

Lemma string_named_queue_of names : forall base,
  forallb string_named (queue_of base names) = true.
Proof. induction names as [|n names IH]; intros base; [reflexivity | apply IH]. Qed.

Lemma length_queue_of names : forall base,
  length (queue_of base names) = length names.
Proof.
  induction names as [|n names IH]; intros base; [reflexivity |].
  cbn. by rewrite IH.
Qed.

Lemma string_queue_prefix first rest root :
  forallb string_named (first :: rest) = true ->
  executeInstalls_prefix stored root (first :: rest)
  = Normal ([],
            mkFlush (first :: rest)
                    (generateClientCommands (PACKAGE_MANAGER stored) JUndefined
                       (replicate (length (first :: rest)) "undefined@undefined"))
                    root).
Proof.
  intros Hall. rewrite executeInstalls_prefix_cons. cbn zeta.
  destruct (string_queue_one_group (first :: rest) Hall) as (-> & -> & Hentries).
  rewrite getPackageNames_entry, Hentries.
  destruct (string_named_fields first) as (_ & _ & ->); [| reflexivity].
  cbn in Hall. by apply andb_true_iff in Hall as [? _].
Qed.

Lemma run_expiry_and_success first rest r c np sc iv fi th :
  forallb string_named (first :: rest) = true ->
  run stored [Tick; LockGranted 0; ExecaSettled 0 ExecaOk]
      (mkState (first :: rest) (Some (c + debounce_wait, r)) (c + 24) np false
               [] [] sc iv fi th)
  = mkState [] None (c + 25) np false [] []
            (sc ++ (outsideResolve <$> first :: rest))
            (iv ++ [(PACKAGE_MANAGER stored,
                     generateClientCommands (PACKAGE_MANAGER stored) JUndefined
                       (replicate (length (first :: rest)) "undefined@undefined"),
                     r)])
            (fi ++ [c + 25]) th.
Proof.
  intros Hstr.
  change (run stored [Tick; LockGranted 0; ExecaSettled 0 ExecaOk] ?s)
    with (execa_settled stored 0 ExecaOk
            (lock_granted stored 0 (tick stored s))).
  unfold tick, debounce_expire. cbn [timer clock].
  destruct (Nat.leb_spec (c + debounce_wait) (S (c + 24)));
    [| unfold debounce_wait in *; lia].
  unfold executeInstalls. cbn [installs].
  rewrite (string_queue_prefix first rest r Hstr).
  cbn. f_equal; [lia | do 2 f_equal; lia].
Qed.

End Success.

(** X12: the successful round trip.  From a state with nothing queued, no
    timer, no activation and the lock free, one or more calls of
    [createInstall] with string names, then the wait of 25 time units, the
    grant of the lock and a successful installer call lead back to such a
    state.  The timer has expired once, 25 units after the calls; the
    installer was called once, in the root of the last call; every promise
    made by the calls is resolved, in the order of the calls; nothing was
    thrown. *)
Theorem X12_burst_then_success stored s root name more :
  idle s ->
  let requests := (root, name) :: more in
  let s' := run stored (calls_then_success requests) s in
  idle s'
  /\ invocations s'
     = invocations s
       ++ [(PACKAGE_MANAGER stored,
            generateClientCommands (PACKAGE_MANAGER stored) JUndefined
              (replicate (length requests) "undefined@undefined"),
            final_root root more)]
  /\ settle_calls s'
     = settle_calls s
       ++ ((fun p => (p, Resolved)) <$> seq (next_promise s) (length requests))
  /\ fired s' = fired s ++ [clock s + 25]
  /\ thrown s' = thrown s
  /\ next_promise s' = next_promise s + length requests.
Proof.
  intros (Hq & Ht & Hl & Hal & Hae) requests s'.
  destruct s as [q t c np lk al ae sc iv fi th]. cbn in Hq, Ht, Hl, Hal, Hae.
  subst q t lk al ae. subst s' requests. unfold calls_then_success.
  change (replicate debounce_wait Tick
          ++ [LockGranted 0; ExecaSettled 0 ExecaOk])
    with (replicate 24 Tick ++ [Tick; LockGranted 0; ExecaSettled 0 ExecaOk]).
  rewrite !run_app, run_calls.
  rewrite run_waiting by (unfold debounce_wait; lia).
  cbn [app].
  pose proof (string_named_queue_of (name :: more.*2) np) as Hstr.
  pose proof (length_queue_of (name :: more.*2) np) as Hlen.
  pose proof (promise_queue_of (name :: more.*2) np) as Hres.
  cbn [length] in Hlen, Hres. rewrite length_fmap in Hlen, Hres.
  remember (queue_of np (name :: more.*2)) as queue eqn:Equeue.
  destruct queue as [|first rest]; [discriminate |].
  rewrite (run_expiry_and_success stored first rest _ c _ sc iv fi th Hstr).
  cbn [installs timer lock_held awaiting_lock awaiting_execa settle_calls
       invocations fired thrown next_promise clock].
  rewrite Hlen, Hres. cbn [length].
  repeat split.
Qed.

Lemma X12_burst_then_success_witness :
  idle init
  /\ settle_calls
       (run JUndefined
            (calls_then_success [("/a", "gatsby-plugin-image");
                                 ("/b", "gatsby-plugin-sharp")]) init)
     = [(0, Resolved); (1, Resolved)]
  /\ invocations
       (run JUndefined
            (calls_then_success [("/a", "gatsby-plugin-image");
                                 ("/b", "gatsby-plugin-sharp")]) init)
     = [("yarn", Some ["add"; "-W"; "undefined@undefined"; "undefined@undefined"],
         "/b")].
Proof.
  assert (Hidle : idle init) by (repeat split; reflexivity).
  split; [exact Hidle |].
  destruct (X12_burst_then_success JUndefined init "/a" "gatsby-plugin-image"
              [("/b", "gatsby-plugin-sharp")] Hidle)
    as (_ & Hinv & Hset & _).
  split; [exact Hset | exact Hinv].
Defined.

(** ** Draining the queue when every installer call succeeds *)

Section Drain.

Variable stored : jsval.

Lemma run_successful_pass q t c np f sc iv fi th :
  run stored successful_pass (mkState q t c np false [f] [] sc iv fi th)
  = let settled := sc ++ (outsideResolve <$> packagesToInstall f) in
    let called := iv ++ [(PACKAGE_MANAGER stored, commands f, cwd f)] in
    match q with
    | [] => mkState [] t c np false [] [] settled called fi th
    | first :: _ =>
      let group := serviced_group q in
      mkState (kept group q) t c np false
              [mkFlush group
                 (generateClientCommands (PACKAGE_MANAGER stored)
                    (res_dependencyType (resource first))
                    (getPackageNames (resource <$> group)))
                 (cwd f)]
              [] settled called fi th
    end.
Proof.
  change (run stored successful_pass ?s)
    with (execa_settled stored 0 ExecaOk (lock_granted stored 0 s)).
  unfold lock_granted. cbn [lock_held awaiting_lock lookup list_lookup].
  unfold execa_settled.
  cbn [awaiting_execa app lookup list_lookup installs delete list_delete].
  destruct q as [|first rest]; [reflexivity |].
  cbn [length Nat.ltb Nat.leb]. rewrite executeInstalls_unfold. reflexivity.
Qed.

Lemma drain_bounded bound : forall q t c np f sc iv fi th,
  length q <= bound ->
  exists passes,
    passes <= length q
    /\ let s' := run stored (concat (replicate (S passes) successful_pass))
                     (mkState q t c np false [f] [] sc iv fi th) in
       drained s'
       /\ length (invocations s') = length iv + S passes
       /\ thrown s' = th /\ timer s' = t /\ fired s' = fi.
Proof.
  induction bound as [|bound IH]; intros q t c np f sc iv fi th Hlen.
  - destruct q; [| cbn in Hlen; lia]. exists 0. split; [cbn; lia |].
    cbn [replicate concat]. rewrite app_nil_r, run_successful_pass.
    cbn. rewrite length_app. cbn. repeat split. 
  - destruct q as [|first rest].
    + exists 0. split; [cbn; lia |].
      cbn [replicate concat]. rewrite app_nil_r, run_successful_pass.
      cbn. rewrite length_app. cbn. repeat split.
    + assert (Hshrink : length (kept (serviced_group (first :: rest))
                                     (first :: rest)) <= length rest).
      { rewrite kept_drops_first. apply sublist_length, filter_sublist. }
      destruct (IH (kept (serviced_group (first :: rest)) (first :: rest)) t c np
                   (mkFlush (serviced_group (first :: rest))
                      (generateClientCommands (PACKAGE_MANAGER stored)
                         (res_dependencyType (resource first))
                         (getPackageNames
                            (resource <$> serviced_group (first :: rest))))
                      (cwd f))
                   (sc ++ (outsideResolve <$> packagesToInstall f))
                   (iv ++ [(PACKAGE_MANAGER stored, commands f, cwd f)]) fi th)
        as (passes & Hp & Hd & Hi & Hrest).
      { cbn [length] in Hlen. lia. }
      exists (S passes). split; [cbn [length]; lia |].
      change (concat (replicate (S (S passes)) successful_pass))
        with (successful_pass ++ concat (replicate (S passes) successful_pass)).
      rewrite run_app, run_successful_pass. cbn zeta.
      split; [exact Hd |]. split; [| exact Hrest].
      rewrite Hi, length_app. cbn [length]. lia.
Qed.

End Drain.

(** X20: the drain ends.  When one activation waits for the lock, the lock
    is free and no installer call runs, and every installer call from then
    on succeeds, the passes that follow one another empty the queue: after
    at most one pass more than there are queued requests nothing is queued,
    no activation is left and the lock is free; the installer was called
    once per pass and nothing was thrown. *)
Theorem X20_successful_passes_drain_the_queue stored s f :
  lock_held s = false ->
  awaiting_lock s = [f] ->
  awaiting_execa s = [] ->
  exists passes,
    passes <= length (installs s)
    /\ let s' := run stored (concat (replicate (S passes) successful_pass)) s in
       drained s'
       /\ length (invocations s') = length (invocations s) + S passes
       /\ thrown s' = thrown s.
Proof.
  intros Hl Hal Hae. destruct s as [q t c np lk al ae sc iv fi th].
  cbn in Hl, Hal, Hae. subst lk al ae.
  destruct (drain_bounded stored (length q) q t c np f sc iv fi th (le_n _))
    as (passes & Hp & Hd & Hi & Hth & _).
  exists passes. cbn [installs invocations thrown]. tauto.
Qed.

Lemma X20_successful_passes_drain_the_queue_witness :
  let s := run JUndefined three_groups init in
  let f := mkFlush [mkInstall 0 (ResObject (JStr "react") (JStr "18.2.0")
                                           (JStr "production"))]
                   (Some ["add"; "-W"; "react@18.2.0"]) "/site" in
  lock_held s = false /\ awaiting_lock s = [f] /\ awaiting_execa s = []
  /\ length (installs s) = 2
  /\ ~ drained (run JUndefined (concat (replicate 2 successful_pass)) s)
  /\ invocations (run JUndefined (concat (replicate 3 successful_pass)) s)
     = [("yarn", Some ["add"; "-W"; "react@18.2.0"], "/site");
        ("yarn", Some ["add"; "-W"; "--dev"; "jest@29.0.0"], "/site");
        ("yarn", Some ["add"; "-W"; "sharp@0.32.0"], "/site")]
  /\ exists passes,
       passes <= 2
       /\ drained (run JUndefined
                       (concat (replicate (S passes) successful_pass)) s)
       /\ length (invocations
                    (run JUndefined
                         (concat (replicate (S passes) successful_pass)) s))
          = S passes.
Proof.
  intros s f.
  assert (H1 : lock_held s = false) by reflexivity.
  assert (H2 : awaiting_lock s = [f]) by reflexivity.
  assert (H3 : awaiting_execa s = []) by reflexivity.
  split; [exact H1 | split; [exact H2 | split; [exact H3 |]]].
  split; [reflexivity |].
  split; [intros (_ & Hal & _); vm_compute in Hal; discriminate Hal |].
  split; [reflexivity |].
  destruct (X20_successful_passes_drain_the_queue JUndefined s f H1 H2 H3)
    as (passes & Hp & Hd & Hi & _).
  exists passes. split; [exact Hp | split; [exact Hd | exact Hi]].
Defined.

(** * Page generation jobs *)

Lemma slices_concat {A : Type} (l : list A) (size n : nat) :
  concat ((fun i => take size (drop (i * size) l)) <$> seq 0 n)
  = take (n * size) l.
Proof.
  induction n as [|n IH]; [reflexivity |].
  rewrite seq_S, fmap_app, concat_app, IH. cbn [fmap list_fmap concat].
  rewrite app_nil_r, take_take_drop. f_equal. lia.
Qed.

Lemma nativeCeil_div_covers (length size : Z) :
  (1 <= size)%Z -> (length <= nativeCeil_div length size * size)%Z.
Proof.
  intros Hs. unfold nativeCeil_div.
  pose proof (Z.div_mod (length + size - 1) size ltac:(lia)) as Hdiv.
  pose proof (Z.mod_pos_bound (length + size - 1) size ltac:(lia)) as Hmod.
  nia.
Qed.


Lemma nativeCeil_div_nonneg (length size : Z) :
  (1 <= size)%Z -> (0 <= length)%Z -> (0 <= nativeCeil_div length size)%Z.
Proof. intros Hs Hl. unfold nativeCeil_div. apply Z.div_pos; lia. Qed.

Lemma baseSlice_take_drop {A : Type} (l : list A) (size : Z) (i : nat) :
  (1 <= size)%Z ->
  baseSlice l (Z.of_nat i * size) (Z.of_nat i * size + size)
  = take (Z.to_nat size) (drop (i * Z.to_nat size) l).
Proof.
  intros Hs. unfold baseSlice.
  replace (Z.to_nat (Z.of_nat i * size)) with (i * Z.to_nat size) by nia.
  set (k := drop (i * Z.to_nat size) l).
  assert (Hk : length k = length l - i * Z.to_nat size)
    by (subst k; apply length_drop).
  destruct (Z.min_spec (Z.of_nat i * size + size) (Z.of_nat (length l)))
    as [[Hlt ->] | [Hge ->]].
  - f_equal. lia.
  - rewrite !take_ge; [reflexivity | nia | nia].
Qed.

Lemma chunk_unfold {A : Type} (l : list A) (size : jsnum) :
  (1 <= toInteger size)%Z ->
  chunk (Some l) size
  = (fun i => take (Z.to_nat (toInteger size))
                   (drop (i * Z.to_nat (toInteger size)) l))
    <$> seq 0 (Z.to_nat (nativeCeil_div (Z.of_nat (length l)) (toInteger size))).
Proof.
  intros Hs. unfold chunk. rewrite Z.max_l by lia.
  destruct (Z.ltb_spec (toInteger size) 1) as [Hlt | _]; [lia |].
  rewrite orb_false_r. cbn [default from_option].
  destruct (Z.eqb_spec (Z.of_nat (length l)) 0) as [Hz | _].
  - rewrite Hz. unfold nativeCeil_div.
    rewrite Z.div_small by lia. reflexivity.
  - apply list_fmap_ext. intros _ i _. by apply baseSlice_take_drop.
Qed.

Lemma chunk_none {A : Type} (array : option (list A)) (size : jsnum) :
  (toInteger size < 1)%Z -> chunk array size = [].
Proof.
  intros Hs. unfold chunk.
  destruct (Z.ltb_spec (Z.max (toInteger size) 0) 1) as [_ | Hge]; [| lia].
  by rewrite orb_true_r.
Qed.

Lemma chunk_concat {A : Type} (l : list A) (size : jsnum) :
  (1 <= toInteger size)%Z -> concat (chunk (Some l) size) = l.
Proof.
  intros Hs. rewrite chunk_unfold, slices_concat by assumption.
  apply take_ge.
  pose proof (nativeCeil_div_covers (Z.of_nat (length l)) (toInteger size) Hs).
  pose proof (nativeCeil_div_nonneg (Z.of_nat (length l)) (toInteger size) Hs
                ltac:(lia)).
  nia.
Qed.


Lemma chunks_pages_spec setting :
  chunks_pages setting = true <-> (1 <= chunk_size setting)%Z.
Proof.
  unfold chunk_size, pageGenChunkSize.
  destruct setting as [| | |num den]; cbn [chunks_pages num_truthy toInteger].
  - split; [intros _; by vm_compute | reflexivity].
  - split; [intros _; by vm_compute | reflexivity].
  - split; [discriminate | intros H; by vm_compute in H].
  - destruct num as [|n|n]; cbn [num_truthy toInteger Z.eqb orb].
    + split; [intros _; by vm_compute | reflexivity].
    + rewrite Z.leb_le. split; intros H.
      * apply Z.quot_le_lower_bound; lia.
      * destruct (Z.lt_ge_cases (Z.pos n) (Z.pos den)) as [Hlt | Hge]; [| lia].
        rewrite Z.quot_small in H by lia. lia.
    + rewrite Z.leb_le. split; [lia |]. intros H.
      pose proof (Z.quot_opp_l (Z.pos n) (Z.pos den) ltac:(lia)) as Hq.
      change (- Z.pos n)%Z with (Z.neg n) in Hq.
      pose proof (Z.quot_pos (Z.pos n) (Z.pos den) ltac:(lia) ltac:(lia)).
      lia.
Qed.

Lemma job_paths_of_chunks (pageChunks : list (list (option page))) :
  concat (job_paths
            <$> ((fun items => mkJob "GENERATE_PAGE" (item_path <$> items) []
                                     ("gatsby", "4.10.1")) <$> pageChunks))
  = item_path <$> concat pageChunks.
Proof.
  induction pageChunks as [|c cs IH]; [reflexivity |].
  cbn. rewrite fmap_app. f_equal. exact IH.
Qed.

Lemma jobs_cover setting queryIds :
  chunks_pages setting = true ->
  concat (job_paths <$> runPageGenerationJobs setting (Some queryIds))
  = item_path <$> pageQueryIds queryIds.
Proof.
  intros Hs. apply chunks_pages_spec in Hs.
  unfold runPageGenerationJobs. rewrite job_paths_of_chunks.
  cbn [fmap option_fmap option_map].
  by rewrite chunk_concat.
Qed.

(** X13: when the chunk size setting is not a number, a zero, plus infinity
    or a finite value of at least 1 (a fraction included), the jobs created
    cover the queued pages exactly: the paths of the jobs, taken in the
    order the jobs are created, are the paths of the queued pages in their
    order, none left out and none repeated. *)
Theorem X13_jobs_cover_every_page setting queryIds :
  chunks_pages setting = true ->
  concat (job_paths <$> runPageGenerationJobs setting (Some queryIds))
  = item_path <$> pageQueryIds queryIds.
Proof. apply jobs_cover. Qed.

Lemma X13_jobs_cover_every_page_witness :
  chunks_pages (Finite 5 2) = true
  /\ concat (job_paths
               <$> runPageGenerationJobs (Finite 5 2)
                     (Some (mkQueryIds [Some (mkPage "/"); Some (mkPage "/a");
                                        Some (mkPage "/b")])))
     = [JStr "/"; JStr "/a"; JStr "/b"].
Proof.
  assert (H : chunks_pages (Finite 5 2) = true) by reflexivity.
  split; [exact H |].
  exact (X13_jobs_cover_every_page (Finite 5 2)
           (mkQueryIds [Some (mkPage "/"); Some (mkPage "/a"); Some (mkPage "/b")])
           H).
Defined.

(** X14: no job is created exactly when the argument is missing, or has no
    page, or the chunk size setting is minus infinity or a non-zero value
    below 1: a negative number, or a fraction such as 0.5, is truthy, so
    the default of 50 is not used, and [chunk] makes it the size 0. *)
Theorem X14_no_jobs setting queryIds :
  runPageGenerationJobs setting queryIds = []
  <-> queryIds = None
      \/ (exists q, queryIds = Some q /\ pageQueryIds q = [])
      \/ chunks_pages setting = false.
Proof.
  split.
  - intros Hnil. destruct queryIds as [q|]; [| by left].
    destruct (pageQueryIds q) as [|p ps] eqn:Hq; [right; left; eauto |].
    right. right. destruct (chunks_pages setting) eqn:Hs; [| reflexivity].
    pose proof (jobs_cover setting q Hs) as Hcover.
    rewrite Hnil, Hq in Hcover. discriminate Hcover.
  - unfold runPageGenerationJobs.
    intros [-> | [(q & -> & Hq) | Hs]].
    + reflexivity.
    + unfold chunk. cbn. rewrite Hq. reflexivity.
    + rewrite chunk_none; [reflexivity |].
      destruct (Z.lt_ge_cases (toInteger (pageGenChunkSize setting)) 1)
        as [Hlt | Hge]; [exact Hlt |].
      apply chunks_pages_spec in Hge. congruence.
Qed.



(** * Adding a plugin to the config file *)

Section ConfigFileProperties.

Import ConfigFile.

Context {plugin_options : Type}.
Variable getConfigPath : string -> string.
Variable transform : string -> @babel_plugin plugin_options -> result string.

Lemma lookup_insert_cases {A : Type} (l : list A) (i j : nat) (x y : A) :
  <[i := x]> l !! j = Some y ->
  (i = j /\ y = x /\ i < length l) \/ (i <> j /\ l !! j = Some y).
Proof.
  intros H. destruct (decide (i = j)) as [-> | Hne].
  - left. pose proof (lookup_lt_Some _ _ _ H) as Hlt.
    rewrite length_insert in Hlt.
    rewrite list_lookup_insert_eq in H by assumption.
    injection H as <-. tauto.
  - right. by rewrite list_lookup_insert_ne in H.
Qed.

Lemma replay_snoc fs0 (inputs : list (@IGatsbyPluginCreateInput plugin_options)) input :
  replay getConfigPath transform fs0 (inputs ++ [input])
  = match addPluginToConfig transform
            (replay getConfigPath transform fs0 inputs (getConfigPath (root input))) input with
    | Returned code =>
      write_file (replay getConfigPath transform fs0 inputs) (getConfigPath (root input)) code
    | Thrown => replay getConfigPath transform fs0 inputs
    end.
Proof. unfold replay. by rewrite foldl_snoc. Qed.

Lemma config_inv_step fs0 s e : config_inv getConfigPath transform fs0 s -> config_inv getConfigPath transform fs0 (config_step getConfigPath transform s e).
Proof.
  intros Hinv. pose proof Hinv as (Huniq & Hlock & Hcode & Hrej & Hfiles).
  destruct e as [input|i|i ok|i ok]; cbn [config_step].
  - (* Create *)
    assert (Hsnoc : forall j c,
               (creates s ++ [(input, AwaitLock)]) !! j = Some c ->
               creates s !! j = Some c \/ c = (input, AwaitLock)).
    { intros j c Hj. apply lookup_app_Some in Hj as [Hj | [_ Hj]]; [by left |].
      right. destruct (j - length (creates s)); [by injection Hj | discriminate]. }
    split; [| split; [| split; [| split]]]; cbn.
    + intros j1 j2 c1 c2 H1 H2 Hc1 Hc2.
      apply Hsnoc in H1 as [H1 | ->]; [| discriminate].
      apply Hsnoc in H2 as [H2 | ->]; [| discriminate]. eauto.
    + intros j c Hj Hc. apply Hsnoc in Hj as [Hj | ->]; [eauto | discriminate].
    + intros j inp code Hj. apply Hsnoc in Hj as [Hj | Hj]; [eauto | discriminate].
    + intros j c Hj Hc. apply Hsnoc in Hj as [Hj | ->]; [| discriminate].
      destruct (Hrej j c Hj Hc) as [Hl Hnone]. split; [exact Hl |].
      intros j2 c2 H2. apply Hsnoc in H2 as [H2 | ->]; [eauto | reflexivity].
    + exact Hfiles.
  - (* ConfigLockGranted *)
    destruct (config_lock s) eqn:Hheld; [exact Hinv |].
    destruct (creates s !! i) as [[input ph]|] eqn:Hi; [| exact Hinv].
    destruct ph; try exact Hinv.
    assert (Hnone : forall j c, creates s !! j = Some c ->
                                in_critical_section c = false).
    { intros j c Hj. destruct (in_critical_section c) eqn:Hc; [| reflexivity].
      specialize (Hlock j c Hj Hc). congruence. }
    split; [| split; [| split; [| split]]]; cbn.
    + intros j1 j2 c1 c2 H1 H2 Hc1 Hc2.
      apply lookup_insert_cases in H1 as [(<- & -> & _) | [_ H1]];
        [| rewrite (Hnone _ _ H1) in Hc1; discriminate].
      apply lookup_insert_cases in H2 as [(<- & -> & _) | [_ H2]];
        [reflexivity | rewrite (Hnone _ _ H2) in Hc2; discriminate].
    + reflexivity.
    + intros j inp code Hj.
      apply lookup_insert_cases in Hj as [(_ & Hj & _) | [_ Hj]];
        [discriminate | eauto].
    + intros j c Hj Hc.
      apply lookup_insert_cases in Hj as [(_ & -> & _) | [_ Hj]];
        [discriminate |].
      destruct (Hrej j c Hj Hc) as [Hl _]. congruence.
    + exact Hfiles.
  - (* ReadSettled *)
    destruct (creates s !! i) as [[input ph]|] eqn:Hi; [| exact Hinv].
    destruct ph; try exact Hinv.
    pose proof (Hlock i _ Hi eq_refl) as Hheld.
    assert (Hothers : forall j c, i <> j -> creates s !! j = Some c ->
                                  in_critical_section c = false).
    { intros j c Hne Hj. destruct (in_critical_section c) eqn:Hc; [| reflexivity].
      exfalso. apply Hne. exact (Huniq i j _ _ Hi Hj eq_refl Hc). }
    split; [| split; [| split; [| split]]]; cbn.
    + intros j1 j2 c1 c2 H1 H2 Hc1 Hc2.
      apply lookup_insert_cases in H1 as [(<- & _ & _) | [Hn1 H1]];
        [| rewrite (Hothers _ _ Hn1 H1) in Hc1; discriminate].
      apply lookup_insert_cases in H2 as [(<- & _ & _) | [Hn2 H2]];
        [reflexivity | rewrite (Hothers _ _ Hn2 H2) in Hc2; discriminate].
    + intros. exact Hheld.
    + intros j inp code Hj.
      apply lookup_insert_cases in Hj as [(<- & Hj & _) | [_ Hj]]; [| eauto].
      injection Hj as <- Hph. destruct ok; [| discriminate].
      destruct (addPluginToConfig _ _ _) as [code'|]; [| discriminate].
      by injection Hph as ->.
    + intros j c Hj Hc. split; [exact Hheld |]. intros j2 c2 H2.
      apply lookup_insert_cases in Hj as [(<- & -> & _) | [Hnj Hj]].
      * apply lookup_insert_cases in H2 as [(_ & -> & _) | [Hn2 H2]];
          [| exact (Hothers _ _ Hn2 H2)].
        unfold is_rejected in Hc. unfold in_critical_section. cbn in *.
        destruct ok; [| reflexivity].
        destruct (addPluginToConfig _ _ _); [discriminate | reflexivity].
      * destruct (Hrej j c Hj Hc) as [_ Hnone].
        pose proof (Hnone i _ Hi) as Hbad. cbn in Hbad. discriminate Hbad.
    + exact Hfiles.
  - (* WriteSettled *)
    destruct (creates s !! i) as [[input ph]|] eqn:Hi; [| exact Hinv].
    destruct ph as [| |code| |]; try exact Hinv.
    pose proof (Hlock i _ Hi eq_refl) as Hheld.
    assert (Hothers : forall j c, i <> j -> creates s !! j = Some c ->
                                  in_critical_section c = false).
    { intros j c Hne Hj. destruct (in_critical_section c) eqn:Hc; [| reflexivity].
      exfalso. apply Hne. exact (Huniq i j _ _ Hi Hj eq_refl Hc). }
    assert (Hnorej : forall j c, creates s !! j = Some c -> is_rejected c = false).
    { intros j c Hj. destruct (is_rejected c) eqn:Hc; [| reflexivity].
      destruct (Hrej j c Hj Hc) as [_ Hnone].
      specialize (Hnone i _ Hi). cbn in Hnone. discriminate Hnone. }
    assert (Hafter : forall ph', in_critical_section (input, ph') = false ->
              forall j c, <[i := (input, ph')]> (creates s) !! j = Some c ->
                          in_critical_section c = false).
    { intros ph' Hph j c Hj.
      apply lookup_insert_cases in Hj as [(_ & -> & _) | [Hn Hj]];
        [exact Hph | exact (Hothers _ _ Hn Hj)]. }
    destruct ok.
    + split; [| split; [| split; [| split]]];
        cbn [files written creates config_lock].
      * intros j1 j2 c1 c2 H1 H2 Hc1 Hc2.
        rewrite (Hafter CallFulfilled eq_refl _ _ H1) in Hc1. discriminate.
      * intros j c Hj Hc.
        rewrite (Hafter CallFulfilled eq_refl _ _ Hj) in Hc. discriminate.
      * intros j inp code' Hj.
        pose proof (Hafter CallFulfilled eq_refl _ _ Hj). discriminate.
      * intros j c Hj Hc.
        apply lookup_insert_cases in Hj as [(_ & -> & _) | [_ Hj]];
          [discriminate |].
        rewrite (Hnorej _ _ Hj) in Hc. discriminate.
      * intros p. rewrite replay_snoc.
        rewrite <- (Hfiles (getConfigPath (root input))).
        rewrite (Hcode i input code Hi). unfold write_file.
        destruct (String.eqb p _); [reflexivity | apply Hfiles].
    + split; [| split; [| split; [| split]]]; cbn.
      * intros j1 j2 c1 c2 H1 H2 Hc1 Hc2.
        rewrite (Hafter CallRejected eq_refl _ _ H1) in Hc1. discriminate.
      * intros. exact Hheld.
      * intros j inp code' Hj.
        pose proof (Hafter CallRejected eq_refl _ _ Hj). discriminate.
      * intros j c Hj Hc. split; [exact Hheld |].
        intros j2 c2 H2. exact (Hafter CallRejected eq_refl _ _ H2).
      * exact Hfiles.
Qed.

Lemma config_inv_run fs0 evs s : config_inv getConfigPath transform fs0 s -> config_inv getConfigPath transform fs0 (config_run getConfigPath transform evs s).
Proof.
  revert s. induction evs as [|e evs IH]; intros s H; [exact H |].
  apply (IH (config_step getConfigPath transform s e)), config_inv_step, H.
Qed.

Lemma config_inv_init fs0 : config_inv getConfigPath transform fs0 (config_init fs0).
Proof. repeat split; intros; discriminate. Qed.

Lemma config_stuck_step s e :
  config_lock s = true ->
  (forall j c, creates s !! j = Some c -> in_critical_section c = false) ->
  let s' := config_step getConfigPath transform s e in
  config_lock s' = true
  /\ (forall j c, creates s' !! j = Some c -> in_critical_section c = false)
  /\ files s' = files s /\ written s' = written s
  /\ (forall j input, creates s' !! j = Some (input, CallFulfilled) ->
                      creates s !! j = Some (input, CallFulfilled)).
Proof.
  intros Hl Hnone.
  assert (Hsame : let s' := s in
            config_lock s' = true
            /\ (forall j c, creates s' !! j = Some c -> in_critical_section c = false)
            /\ files s' = files s /\ written s' = written s
            /\ (forall j input, creates s' !! j = Some (input, CallFulfilled) ->
                                creates s !! j = Some (input, CallFulfilled)))
    by (cbn; tauto).
  destruct e as [input|i|i ok|i ok]; cbn [config_step].
  - cbn. split; [exact Hl |].
    assert (Hsnoc : forall j c,
               (creates s ++ [(input, AwaitLock)]) !! j = Some c ->
               creates s !! j = Some c \/ c = (input, AwaitLock)).
    { intros j c Hj. apply lookup_app_Some in Hj as [Hj | [_ Hj]]; [by left |].
      right. destruct (j - length (creates s)); [by injection Hj | discriminate]. }
    split; [| split; [reflexivity | split; [reflexivity |]]].
    + intros j c Hj. apply Hsnoc in Hj as [Hj | ->]; [eauto | reflexivity].
    + intros j inp Hj. apply Hsnoc in Hj as [Hj | Hj]; [exact Hj | discriminate].
  - rewrite Hl. exact Hsame.
  - destruct (creates s !! i) as [[input ph]|] eqn:Hi; [| exact Hsame].
    destruct ph; try exact Hsame.
    pose proof (Hnone i _ Hi) as Hbad. cbn in Hbad. discriminate Hbad.
  - destruct (creates s !! i) as [[input ph]|] eqn:Hi; [| exact Hsame].
    destruct ph; try exact Hsame.
    pose proof (Hnone i _ Hi) as Hbad. cbn in Hbad. discriminate Hbad.
Qed.

Lemma config_stuck_run evs s :
  config_lock s = true ->
  (forall j c, creates s !! j = Some c -> in_critical_section c = false) ->
  let s' := config_run getConfigPath transform evs s in
  config_lock s' = true
  /\ files s' = files s /\ written s' = written s
  /\ (forall j input, creates s' !! j = Some (input, CallFulfilled) ->
                      creates s !! j = Some (input, CallFulfilled)).
Proof.
  revert s. induction evs as [|e evs IH]; intros s Hl Hnone; [cbn; tauto |].
  destruct (config_stuck_step s e Hl Hnone) as (Hl' & Hnone' & Hf & Hw & Hful).
  destruct (IH _ Hl' Hnone') as (Hl2 & Hf2 & Hw2 & Hful2).
  change (config_run getConfigPath transform (e :: evs) s)
    with (config_run getConfigPath transform evs
            (config_step getConfigPath transform s e)).
  cbn zeta. rewrite Hf2, Hw2, Hf, Hw.
  split; [exact Hl2 | split; [reflexivity | split; [reflexivity |]]].
  intros j input Hj. apply Hful, Hful2, Hj.
Qed.

End ConfigFileProperties.

(** X16: the calls of [GatsbyPluginCreate] change the config files one
    after the other.  However the calls and the completions of their
    awaits interleave, at most one call is between the grant of the lock
    and [release], the lock is held while one is, and the files are what
    the completed writes give when each is made on the text the one before
    it left: no plugin addition overwrites another. *)
Theorem X16_config_updates_serialized
    {plugin_options : Type} (getConfigPath : string -> string)
    (transform : string -> @ConfigFile.babel_plugin plugin_options
                 -> ConfigFile.result string)
    (fs0 : string -> string) (evs : list ConfigFile.config_event) :
  let s := ConfigFile.config_run getConfigPath transform evs
             (ConfigFile.config_init fs0) in
  (forall p, ConfigFile.files s p
             = ConfigFile.replay getConfigPath transform fs0
                 (ConfigFile.written s) p)
  /\ (forall i j ci cj,
        ConfigFile.creates s !! i = Some ci ->
        ConfigFile.creates s !! j = Some cj ->
        ConfigFile.in_critical_section ci = true ->
        ConfigFile.in_critical_section cj = true -> i = j)
  /\ (forall i c,
        ConfigFile.creates s !! i = Some c ->
        ConfigFile.in_critical_section c = true ->
        ConfigFile.config_lock s = true).
Proof.
  intros s.
  destruct (config_inv_run getConfigPath transform fs0 evs _
              (config_inv_init getConfigPath transform fs0))
    as (Huniq & Hlock & _ & _ & Hfiles).
  split; [exact Hfiles | split; [exact Huniq | exact Hlock]].
Qed.

(** X17: [GatsbyPluginCreate] has no path that releases the lock after a
    failure.  Once one call has been rejected (the read or the write
    failed, or the transformation threw), the lock stays held: whatever
    happens afterwards, no file is written and no further call is
    fulfilled. *)
Theorem X17_rejected_call_blocks_the_rest
    {plugin_options : Type} (getConfigPath : string -> string)
    (transform : string -> @ConfigFile.babel_plugin plugin_options
                 -> ConfigFile.result string)
    (fs0 : string -> string) (evs more : list ConfigFile.config_event)
    (i : nat) (input : ConfigFile.IGatsbyPluginCreateInput) :
  let s := ConfigFile.config_run getConfigPath transform evs
             (ConfigFile.config_init fs0) in
  let s' := ConfigFile.config_run getConfigPath transform more s in
  ConfigFile.creates s !! i = Some (input, ConfigFile.CallRejected) ->
  ConfigFile.config_lock s' = true
  /\ ConfigFile.files s' = ConfigFile.files s
  /\ ConfigFile.written s' = ConfigFile.written s
  /\ (forall j inp,
        ConfigFile.creates s' !! j = Some (inp, ConfigFile.CallFulfilled) ->
        ConfigFile.creates s !! j = Some (inp, ConfigFile.CallFulfilled)).
Proof.
  intros s s' Hi.
  destruct (config_inv_run getConfigPath transform fs0 evs _
              (config_inv_init getConfigPath transform fs0))
    as (_ & _ & _ & Hrej & _).
  destruct (Hrej i _ Hi eq_refl) as [Hl Hnone].
  exact (config_stuck_run getConfigPath transform more s Hl Hnone).
Qed.

Lemma X17_rejected_call_blocks_the_rest_witness :
  let getConfigPath := fun r : string => r +:+ "/gatsby-config.js" in
  let transform := fun (src : string) (p : @ConfigFile.babel_plugin unit) =>
                     ConfigFile.Returned (src +:+ ConfigFile.pluginOrThemeName p) in
  let first := ConfigFile.mkInput "/site" "gatsby-plugin-image" tt "a" in
  let second := ConfigFile.mkInput "/site" "gatsby-plugin-sharp" tt "b" in
  let evs := [ConfigFile.Create first; ConfigFile.ConfigLockGranted 0;
              ConfigFile.ReadSettled 0 false] in
  let more := [ConfigFile.Create second; ConfigFile.ConfigLockGranted 1;
               ConfigFile.ReadSettled 1 true; ConfigFile.WriteSettled 1 true] in
  let s := ConfigFile.config_run getConfigPath transform evs
             (ConfigFile.config_init (fun _ => "module.exports = {}")) in
  ConfigFile.creates s !! 0 = Some (first, ConfigFile.CallRejected)
  /\ ConfigFile.written (ConfigFile.config_run getConfigPath transform more s) = [].
Proof.
  intros getConfigPath transform first second evs more s.
  assert (H : ConfigFile.creates s !! 0 = Some (first, ConfigFile.CallRejected))
    by reflexivity.
  split; [exact H |].
  exact (proj1 (proj2 (proj2
           (X17_rejected_call_blocks_the_rest getConfigPath transform
              (fun _ => "module.exports = {}") evs more 0 first H)))).
Defined.

(** * The cache of base64 placeholders *)

Section Base64CacheProperties.

Import Base64Cache.

Context {number options_rest : Type}.
Variable number_truthy : number -> bool.
Variable twenty : number.
Variable floor_div : number -> number -> number.
Variable createUrl : string -> @transformer_options number options_rest -> string.
Variable mimeTypeExtensions : string -> jsval.

Lemma prefix_append (a b : string) : String.prefix a (a +:+ b) = true.
Proof.
  induction a as [|c a IH]; [by destruct b |].
  change (String c a +:+ b) with (String c (a +:+ b)). cbn [String.prefix].
  destruct (ascii_dec c c); [exact IH | contradiction].
Qed.

Lemma data_url_not_empty body :
  String.prefix "data:image/" body = true -> exists c rest, body = String c rest.
Proof. destruct body as [|c rest]; [discriminate | eauto]. Qed.

Lemma load_urls_insert (ls : list load) n req fmt st st' :
  ls !! n = Some (mkLoad req fmt st) ->
  fetch_url ∘ request <$> <[n := mkLoad req fmt st']> ls
  = fetch_url ∘ request <$> ls.
Proof.
  intros Hn. rewrite list_fmap_insert. apply list_insert_id.
  rewrite list_lookup_fmap, Hn. reflexivity.
Qed.

Lemma same_url_same_load (s : cache_state) n m ld ld' :
  NoDup (fetch_url ∘ request <$> loads s) ->
  loads s !! n = Some ld -> loads s !! m = Some ld' ->
  fetch_url (request ld) = fetch_url (request ld') -> n = m.
Proof.
  intros Hnd Hn Hm Heq.
  apply (NoDup_lookup _ n m (fetch_url (request ld)) Hnd);
    rewrite list_lookup_fmap; [rewrite Hn | rewrite Hm]; cbn; congruence.
Qed.

Lemma cache_inv_call imageProps directory (s : cache_state) :
  cache_inv s ->
  cache_inv (getBase64Image number_truthy twenty floor_div createUrl
               mimeTypeExtensions imageProps directory s).2.
Proof.
  intros Hinv. pose proof Hinv as (Hnd & Hloads & Hfly & Hres).
  unfold getBase64Image. destruct imageProps as [p|]; [| exact Hinv].
  destruct (String.index _ _ _) as [pos|]; [| exact Hinv].
  set (url := requestUrl number_truthy twenty floor_div createUrl p).
  assert (Hfresh :
    inFlightBase64Cache s !! url = None ->
    match resolvedBase64Cache s !! url with
    | Some (String _ _) => False
    | _ => True
    end ->
    resolvedBase64Cache s !! url = None
    /\ forall n ld, loads s !! n = Some ld -> fetch_url (request ld) <> url).
  { intros Hnone Hempty.
    assert (Hr : resolvedBase64Cache s !! url = None).
    { destruct (resolvedBase64Cache s !! url) as [body|] eqn:E; [| reflexivity].
      destruct (Hres _ _ E) as [Hp _].
      apply data_url_not_empty in Hp as (c & rest & ->). contradiction. }
    split; [exact Hr |]. intros n ld Hn Heq.
    specialize (Hloads n ld Hn). rewrite Heq in Hloads.
    destruct (status ld); destruct Hloads as [H1 H2];
      try congruence.
    destruct H2 as [body H2]. congruence. }
  destruct (resolvedBase64Cache s !! url) as [[|c rest]|] eqn:Er;
    try exact Hinv;
    (destruct (inFlightBase64Cache s !! url) as [n|] eqn:Ef; [exact Hinv |]);
    destruct (Hfresh eq_refl I) as [Hr Hnew]; try discriminate.
  cbn [snd].
  split; [| split; [| split]]; cbn [loads inFlightBase64Cache resolvedBase64Cache].
  - rewrite fmap_app. cbn. apply NoDup_app. split; [exact Hnd |].
    split; [| apply NoDup_singleton].
    intros u Hu Hin. apply list_elem_of_singleton in Hin. subst u.
    apply list_elem_of_fmap in Hu as (ld & Heq & Hld).
    apply list_elem_of_lookup in Hld as [n Hn].
    exact (Hnew n ld Hn (eq_sym Heq)).
  - intros n ld Hn. apply lookup_app_Some in Hn as [Hn | [Hge Hn]].
    + specialize (Hloads n ld Hn). pose proof (Hnew n ld Hn) as Hne.
      rewrite lookup_insert_ne by congruence. exact Hloads.
    + destruct (n - length (loads s)) eqn:En; [| discriminate].
      injection Hn as <-. cbn. rewrite lookup_insert_eq.
      split; [f_equal; lia | exact Er].
  - intros u n Hn. destruct (decide (url = u)) as [<- | Hne].
    + rewrite lookup_insert_eq in Hn. injection Hn as <-.
      eexists. split; [apply list_lookup_middle; reflexivity | reflexivity].
    + rewrite lookup_insert_ne in Hn by assumption.
      destruct (Hfly u n Hn) as (ld & Hld & Hu).
      exists ld. split; [by apply lookup_app_l_Some | exact Hu].
  - intros u body Hu. destruct (Hres u body Hu) as [Hp (n & ld & Hn & Heq)].
    split; [exact Hp |]. exists n, ld. split; [by apply lookup_app_l_Some | exact Heq].
Qed.

Lemma cache_inv_settled n r (s : cache_state) :
  cache_inv s -> cache_inv (load_settled n r s).
Proof.
  intros Hinv. pose proof Hinv as (Hnd & Hloads & Hfly & Hres).
  unfold load_settled.
  destruct (loads s !! n) as [[req fmt st]|] eqn:Hn; [| exact Hinv].
  destruct st; try exact Hinv.
  pose proof (Hloads n _ Hn) as [Hfn Hrn]. cbn in Hfn, Hrn.
  assert (Hother : forall m ld, m <> n -> loads s !! m = Some ld ->
                                fetch_url (request ld) <> fetch_url req).
  { intros m ld Hne Hm Heq. apply Hne.
    exact (same_url_same_load s m n ld _ Hnd Hm Hn Heq). }
  destruct r as [base64|].
  - split; [| split; [| split]];
      cbn [loads inFlightBase64Cache resolvedBase64Cache].
    + by rewrite (load_urls_insert _ _ _ _ _ _ Hn).
    + intros m ld Hm.
      apply lookup_insert_cases in Hm as [(<- & -> & _) | [Hne Hm]].
      * cbn. rewrite lookup_delete_eq, lookup_insert_eq. eauto.
      * pose proof (Hother m ld ltac:(congruence) Hm) as Hu.
        rewrite lookup_delete_ne, lookup_insert_ne by congruence.
        exact (Hloads m ld Hm).
    + intros u k Hk. destruct (decide (fetch_url req = u)) as [<- | Hne].
      * rewrite lookup_delete_eq in Hk. discriminate.
      * rewrite lookup_delete_ne in Hk by assumption.
        destruct (Hfly u k Hk) as (ld & Hld & Hu). exists ld.
        split; [| exact Hu].
        rewrite list_lookup_insert_ne; [exact Hld |].
        intros <-. rewrite Hn in Hld. injection Hld as <-. cbn in Hu. congruence.
    + intros u body Hu. destruct (decide (fetch_url req = u)) as [<- | Hne].
      * rewrite lookup_insert_eq in Hu. injection Hu as <-.
        split; [apply prefix_append |].
        exists n, (mkLoad req fmt LoadFulfilled). split; [| reflexivity].
        apply list_lookup_insert_eq. by eapply lookup_lt_Some.
      * rewrite lookup_insert_ne in Hu by assumption.
        destruct (Hres u body Hu) as [Hp (k & ld & Hk & Heq)].
        split; [exact Hp |]. exists k, ld. split; [| exact Heq].
        rewrite list_lookup_insert_ne; [exact Hk |].
        intros <-. rewrite Hn in Hk. injection Hk as <-. cbn in Heq. congruence.
  - split; [| split; [| split]];
      cbn [loads inFlightBase64Cache resolvedBase64Cache].
    + by rewrite (load_urls_insert _ _ _ _ _ _ Hn).
    + intros m ld Hm.
      apply lookup_insert_cases in Hm as [(<- & -> & _) | [Hne Hm]].
      * cbn. tauto.
      * exact (Hloads m ld Hm).
    + intros u k Hk. destruct (Hfly u k Hk) as (ld & Hld & Hu).
      destruct (decide (n = k)) as [<- | Hne].
      * rewrite Hn in Hld. injection Hld as <-.
        exists (mkLoad req fmt LoadRejected). split; [| exact Hu].
        apply list_lookup_insert_eq. by eapply lookup_lt_Some.
      * exists ld. by rewrite list_lookup_insert_ne.
    + intros u body Hu. destruct (Hres u body Hu) as [Hp (k & ld & Hk & Heq)].
      split; [exact Hp |].
      destruct (decide (n = k)) as [<- | Hne].
      * rewrite Hn in Hk. injection Hk as <-.
        exists n, (mkLoad req fmt LoadRejected). split; [| exact Heq].
        apply list_lookup_insert_eq. by eapply lookup_lt_Some.
      * exists k, ld. by rewrite list_lookup_insert_ne.
Qed.

Lemma cache_inv_run evs :
  cache_inv (cache_run number_truthy twenty floor_div createUrl
               mimeTypeExtensions evs).
Proof.
  unfold cache_run.
  assert (H : cache_inv cache_init).
  { split; [constructor |]. repeat split; intros; discriminate. }
  revert H. generalize cache_init.
  induction evs as [|e evs IH]; intros s H; [exact H |].
  apply IH. destruct e as [p d | n r]; cbn [cache_step].
  - by apply cache_inv_call.
  - by apply cache_inv_settled.
Qed.

End Base64CacheProperties.

(** X18: whatever calls of [getBase64Image] are made and however their
    loads end, no URL is ever loaded twice (not even after its load was
    rejected), no URL is in both caches, and every entry of the cache of
    resolved images is a data URL, so it is never taken for a missing
    entry. *)
Theorem X18_one_load_per_url
    {number options_rest : Type} (number_truthy : number -> bool)
    (twenty : number) (floor_div : number -> number -> number)
    (createUrl : string -> @Base64Cache.transformer_options number options_rest
                 -> string)
    (mimeTypeExtensions : string -> jsval)
    (evs : list Base64Cache.cache_event) :
  let s := Base64Cache.cache_run number_truthy twenty floor_div createUrl
             mimeTypeExtensions evs in
  NoDup (Base64Cache.fetch_url ∘ Base64Cache.request <$> Base64Cache.loads s)
  /\ (forall url,
        Base64Cache.inFlightBase64Cache s !! url = None
        \/ Base64Cache.resolvedBase64Cache s !! url = None)
  /\ (forall url body,
        Base64Cache.resolvedBase64Cache s !! url = Some body ->
        String.prefix "data:image/" body = true /\ body <> EmptyString).
Proof.
  intros s.
  destruct (cache_inv_run number_truthy twenty floor_div createUrl
              mimeTypeExtensions evs) as (Hnd & Hloads & Hfly & Hres).
  fold s in Hnd, Hloads, Hfly, Hres.
  split; [exact Hnd | split].
  - intros url.
    destruct (Base64Cache.inFlightBase64Cache s !! url) as [n|] eqn:Ef;
      [| by left].
    right. destruct (Hfly url n Ef) as (ld & Hld & <-).
    specialize (Hloads n ld Hld).
    destruct (Base64Cache.status ld); destruct Hloads as [H1 H2];
      [exact H2 | congruence | exact H2].
  - intros url body Hu. destruct (Hres url body Hu) as [Hp _].
    split; [exact Hp |]. intros ->. discriminate Hp.
Qed.

(** X19: a call of [getBase64Image] for an image whose URL was loaded
    before starts no load and changes neither cache.  If that load was
    fulfilled, the call returns the cached data URL at once; if the load is
    still pending, or was rejected, the call returns the promise of that
    load, so a rejected load is never tried again. *)
Theorem X19_known_url_is_not_loaded_again
    {number options_rest : Type} (number_truthy : number -> bool)
    (twenty : number) (floor_div : number -> number -> number)
    (createUrl : string -> @Base64Cache.transformer_options number options_rest
                 -> string)
    (mimeTypeExtensions : string -> jsval)
    (evs : list Base64Cache.cache_event)
    (p : Base64Cache.image_props) (directory : string)
    (n : nat) (ld : Base64Cache.load) :
  let s := Base64Cache.cache_run number_truthy twenty floor_div createUrl
             mimeTypeExtensions evs in
  let url := Base64Cache.requestUrl number_truthy twenty floor_div createUrl p in
  let result := Base64Cache.getBase64Image number_truthy twenty floor_div
                  createUrl mimeTypeExtensions (Some p) directory s in
  String.index 0 "images.ctfassets.net" (Base64Cache.baseUrl p) <> None ->
  Base64Cache.loads s !! n = Some ld ->
  Base64Cache.fetch_url (Base64Cache.request ld) = url ->
  result.2 = s
  /\ match Base64Cache.status ld with
     | Base64Cache.LoadFulfilled =>
       exists body,
         result.1 = Base64Cache.Body body
         /\ Base64Cache.resolvedBase64Cache s !! url = Some body
     | _ => result.1 = Base64Cache.PromiseOf n
     end.
Proof.
  intros s url result Hctf Hn Hurl.
  destruct (cache_inv_run number_truthy twenty floor_div createUrl
              mimeTypeExtensions evs) as (Hnd & Hloads & Hfly & Hres).
  fold s in Hnd, Hloads, Hfly, Hres.
  specialize (Hloads n ld Hn). rewrite Hurl in Hloads.
  subst result. unfold Base64Cache.getBase64Image.
  destruct (String.index 0 _ _) as [pos|]; [| contradiction].
  fold url.
  destruct (Base64Cache.status ld); destruct Hloads as [H1 H2].
  - rewrite H2, H1. by split.
  - destruct H2 as [body H2]. rewrite H2.
    destruct (Hres url body H2) as [Hp _].
    destruct body as [|c rest]; [discriminate Hp |]. cbn. eauto.
  - rewrite H2, H1. by split.
Qed.

Lemma X19_known_url_is_not_loaded_again_witness :
  let truthy := fun n : nat => negb (Nat.eqb n 0) in
  let createUrl := fun (base : string)
                       (o : @Base64Cache.transformer_options nat unit) =>
                     base +:+ "?fm=" +:+ ToString (Base64Cache.toFormat o) in
  let extensions := fun _ : string => JStr ".jpg" in
  let p := Base64Cache.mkProps
             (Base64Cache.mkAsset "image/jpeg" "digest")
             "//images.ctfassets.net/space/asset/photo.jpg"
             (Base64Cache.mkOptions None (JStr "webp") None None tt) 2 in
  let evs := [Base64Cache.Call (Some p) "/cache";
              Base64Cache.LoadSettled 0 None] in
  let s := Base64Cache.cache_run truthy 20 Nat.div createUrl extensions evs in
  let ld := Base64Cache.mkLoad
              (Base64Cache.mkFetch
                 "//images.ctfassets.net/space/asset/photo.jpg?fm=webp"
                 "/cache" (JStr ".jpg") "digest")
              (JStr "webp") Base64Cache.LoadRejected in
  String.index 0 "images.ctfassets.net" (Base64Cache.baseUrl p) <> None
  /\ Base64Cache.loads s !! 0 = Some ld
  /\ (Base64Cache.getBase64Image truthy 20 Nat.div createUrl extensions
        (Some p) "/cache" s).1 = Base64Cache.PromiseOf 0.
Proof.
  intros truthy createUrl extensions p evs s ld.
  assert (H1 : String.index 0 "images.ctfassets.net" (Base64Cache.baseUrl p)
               <> None) by (vm_compute; discriminate).
  assert (H2 : Base64Cache.loads s !! 0 = Some ld) by reflexivity.
  assert (H3 : Base64Cache.fetch_url (Base64Cache.request ld)
               = Base64Cache.requestUrl truthy 20 Nat.div createUrl p)
    by reflexivity.
  split; [exact H1 | split; [exact H2 |]].
  exact (proj2 (X19_known_url_is_not_loaded_again truthy 20 Nat.div createUrl
                  extensions evs p "/cache" 0 ld H1 H2 H3)).
Defined.
